(** * api/proxy.js: the forwarding proxy's validation gates and HTML rewriting

    A shallow embedding of [handler] of [src/api/proxy.js].

    JavaScript strings are modelled as lists of code units, a code unit as an
    [ascii] (the texts modelled are those whose code units are below 256; the
    patterns of the source name ASCII characters only).  The regular-expression
    literals of the source are kept as syntax trees and run by a backtracking
    matcher that follows the order in which the ECMAScript matcher tries its
    alternatives (left alternative first, greedy quantifiers longest first).

    What the platform provides and the repository does not contain (the [URL]
    class, [Number], [fetch]) is taken as a parameter of the handler. *)

From Stdlib Require Import Ascii String.
From Stdlib Require Import List Bool Arith Lia.
From Stdlib Require Import Floats.PrimFloat.
Import ListNotations.
Open Scope list_scope.

Set Implicit Arguments.

(** ** Strings *)

Definition str := list ascii.

Definition lit (s : string) : str := list_ascii_of_string s.
Arguments lit s%_string.

Definition DQ : ascii := "034"%char.
Definition SQ : ascii := "'"%char.
Definition BSL : ascii := "\"%char.

(** [dq s] is the text [s] with every backtick standing for a double quote. *)
Definition dq (s : string) : str :=
  map (fun c => if Ascii.eqb c "`"%char then DQ else c) (lit s).
Arguments dq s%_string.

Fixpoint str_eqb (a b : str) : bool :=
  match a, b with
  | [], [] => true
  | x :: a', y :: b' => Ascii.eqb x y && str_eqb a' b'
  | _, _ => false
  end.

Fixpoint startsWith (s p : str) : bool :=
  match p, s with
  | [], _ => true
  | x :: p', y :: s' => Ascii.eqb x y && startsWith s' p'
  | _ :: _, [] => false
  end.

(** [String.prototype.endsWith]. *)
Definition endsWith (s p : str) : bool :=
  (length p <=? length s) && str_eqb (skipn (length s - length p) s) p.

(** [String.prototype.includes]. *)
Fixpoint includes (s p : str) : bool :=
  startsWith s p || match s with [] => false | _ :: s' => includes s' p end.

(** White space and line terminators, as [trim] and the class [\s] see them
    (among code units below 256: TAB, LF, VT, FF, CR, SP, NBSP). *)
Definition isSpace (c : ascii) : bool :=
  let n := nat_of_ascii c in
  ((9 <=? n) && (n <=? 13)) || (n =? 32) || (n =? 160).

Definition isLineTerminator (c : ascii) : bool :=
  let n := nat_of_ascii c in (n =? 10) || (n =? 13).

Fixpoint trimStart (s : str) : str :=
  match s with
  | c :: s' => if isSpace c then trimStart s' else s
  | [] => []
  end.

(** [String.prototype.trim]. *)
Definition trim (s : str) : str := rev (trimStart (rev (trimStart s))).

(** [s.split(sep)] for a one-character separator: never an empty array. *)
Fixpoint splitOn (sep : ascii) (s : str) : list str :=
  match s with
  | [] => [[]]
  | c :: s' =>
      if Ascii.eqb c sep then [] :: splitOn sep s'
      else match splitOn sep s' with
           | p :: ps => (c :: p) :: ps
           | [] => [[c]]
           end
  end.

(** [a.join(sep)]. *)
Fixpoint join (sep : str) (l : list str) : str :=
  match l with
  | [] => []
  | [x] => x
  | x :: l' => x ++ sep ++ join sep l'
  end.

(** ** Regular expressions *)

(** One-character matchers: a literal, [.], a class [[...]] or [[^...]], [\s]. *)
Inductive atom : Type :=
| AChr (c : ascii)
| ADot
| ASet (neg : bool) (cs : list ascii)
| AWs.

(** The patterns of the source quantify one-character matchers only. *)
Inductive regex : Type :=
| RNil
| RAtom (a : atom)
| RStar (a : atom)
| RPlus (a : atom)
| RCat (r s : regex)
| RAlt (r s : regex)
| RCap (n : nat) (r : regex)
| RBol
| REol.

Fixpoint rchars (s : str) : regex :=
  match s with
  | [] => RNil
  | [c] => RAtom (AChr c)
  | c :: s' => RCat (RAtom (AChr c)) (rchars s')
  end.

Definition rstr (s : string) : regex := rchars (lit s).
Arguments rstr s%_string.

Fixpoint rseq (l : list regex) : regex :=
  match l with
  | [] => RNil
  | [r] => r
  | r :: l' => RCat r (rseq l')
  end.

Fixpoint ralt (l : list regex) : regex :=
  match l with
  | [] => RNil
  | [r] => r
  | r :: l' => RAlt r (ralt l')
  end.

(** Canonicalisation under the [i] flag (without [u]): a code unit is compared
    through its upper case, and a code unit of 128 or more never folds onto an
    ASCII one; so against ASCII pattern characters only a-z fold. *)
Definition upper (c : ascii) : ascii :=
  let n := nat_of_ascii c in
  if (97 <=? n) && (n <=? 122) then ascii_of_nat (n - 32) else c.

Definition canon (ci : bool) (c : ascii) : ascii := if ci then upper c else c.

Definition atomb (ci : bool) (a : atom) (c : ascii) : bool :=
  match a with
  | AChr x => Ascii.eqb (canon ci x) (canon ci c)
  | ADot => negb (isLineTerminator c)
  | ASet neg cs => xorb neg (existsb (fun x => Ascii.eqb (canon ci x) (canon ci c)) cs)
  | AWs => isSpace c
  end.

Definition captures := list (nat * str).

Fixpoint capture (n : nat) (cs : captures) : option str :=
  match cs with
  | [] => None
  | (m, v) :: cs' => if n =? m then Some v else capture n cs'
  end.

Section Matcher.
Variable R : Type.
Variable ci : bool.   (* the i flag *)
Variable n0 : nat.    (* length of the whole subject, for ^ *)

(** Greedy repetition of a one-character matcher: the longest run first,
    then one character less on each failure of the continuation. *)
Fixpoint star (p : ascii -> bool) (s : str) (k : str -> option R) : option R :=
  match s with
  | c :: s' =>
      if p c
      then match star p s' k with
           | Some r => Some r
           | None => k s
           end
      else k s
  | [] => k []
  end.

Fixpoint exec (r : regex) (s : str) (cs : captures)
         (k : str -> captures -> option R) : option R :=
  match r with
  | RNil => k s cs
  | RAtom a =>
      match s with
      | c :: s' => if atomb ci a c then k s' cs else None
      | [] => None
      end
  | RStar a => star (atomb ci a) s (fun s' => k s' cs)
  | RPlus a =>
      match s with
      | c :: s' => if atomb ci a c then star (atomb ci a) s' (fun s'' => k s'' cs) else None
      | [] => None
      end
  | RCat r1 r2 => exec r1 s cs (fun s' cs' => exec r2 s' cs' k)
  | RAlt r1 r2 =>
      match exec r1 s cs k with
      | Some x => Some x
      | None => exec r2 s cs k
      end
  | RCap n r1 =>
      exec r1 s cs (fun s' cs' => k s' ((n, firstn (length s - length s') s) :: cs'))
  | RBol => if length s =? n0 then k s cs else None
  | REol => match s with [] => k s cs | _ :: _ => None end
  end.
End Matcher.

(** A match of [re] that starts at the head of [s]: its length and captures. *)
Definition matchAt (ci : bool) (n0 : nat) (re : regex) (s : str) : option (nat * captures) :=
  exec ci n0 re s [] (fun s' cs => Some (length s - length s', cs)).

(** [re.test(s)]: a match starting at some index of [s]. *)
Fixpoint searchFrom (ci : bool) (n0 : nat) (re : regex) (s : str) : bool :=
  match matchAt ci n0 re s with
  | Some _ => true
  | None => match s with
            | [] => false
            | _ :: s' => searchFrom ci n0 re s'
            end
  end.

Definition test (ci : bool) (re : regex) (s : str) : bool :=
  searchFrom ci (length s) re s.

(** [s.replace(re, f)] with the [g] flag: first the matches are collected from
    left to right, each search resuming where the previous match ended (one
    place further after an empty match); then the result is assembled from the
    text between matches and the replacement computed for each match. *)
Inductive seg : Type :=
| Keep (c : ascii)
| Hit (m : str) (cs : captures).

Fixpoint scanF (ci : bool) (n0 : nat) (re : regex) (fuel : nat) (s : str) : list seg :=
  match fuel with
  | 0 => []
  | S fuel' =>
      match s with
      | [] =>
          match matchAt ci n0 re s with
          | Some (_, cs) => [Hit [] cs]
          | None => []
          end
      | c :: s' =>
          match matchAt ci n0 re s with
          | Some (0, cs) => Hit [] cs :: Keep c :: scanF ci n0 re fuel' s'
          | Some (S n, cs) => Hit (firstn (S n) s) cs :: scanF ci n0 re fuel' (skipn (S n) s)
          | None => Keep c :: scanF ci n0 re fuel' s'
          end
      end
  end.

Definition scan (ci : bool) (re : regex) (s : str) : list seg :=
  scanF ci (length s) re (S (length s)) s.

Definition segSrc (x : seg) : str :=
  match x with
  | Keep c => [c]
  | Hit m _ => m
  end.

Definition segOut (f : str -> captures -> str) (x : seg) : str :=
  match x with
  | Keep c => [c]
  | Hit m cs => f m cs
  end.

Definition replaceAll (ci : bool) (re : regex) (f : str -> captures -> str) (s : str) : str :=
  concat (map (segOut f) (scan ci re s)).

(** The language of a pattern: [lang ci n0 r t post] says that [r] matches the
    text [t] when [post] is what follows it in a subject of length [n0]. *)
Fixpoint lang (ci : bool) (n0 : nat) (r : regex) (t post : str) : Prop :=
  match r with
  | RNil => t = []
  | RAtom a => exists c, t = [c] /\ atomb ci a c = true
  | RStar a => Forall (fun c => atomb ci a c = true) t
  | RPlus a => t <> [] /\ Forall (fun c => atomb ci a c = true) t
  | RCat r1 r2 =>
      exists t1 t2, t = t1 ++ t2 /\ lang ci n0 r1 t1 (t2 ++ post) /\ lang ci n0 r2 t2 post
  | RAlt r1 r2 => lang ci n0 r1 t post \/ lang ci n0 r2 t post
  | RCap _ r1 => lang ci n0 r1 t post
  | RBol => t = [] /\ length post = n0
  | REol => t = [] /\ post = []
  end.

(** ** The patterns of the source *)

(** Line 22: [/^(localhost|127(?:\\.|$)|0\\.0\\.0\\.0|::1)$/].  In a regular
    expression literal [\\] is a backslash character and the [.] after it
    matches any character but a line terminator. *)
Definition reLocalHost : regex :=
  rseq [ RBol;
         RCap 1 (ralt [ rstr "localhost";
                        RCat (rstr "127") (RAlt (RCat (RAtom (AChr BSL)) (RAtom ADot)) REol);
                        rseq [ rstr "0"; RAtom (AChr BSL); RAtom ADot;
                               rstr "0"; RAtom (AChr BSL); RAtom ADot;
                               rstr "0"; RAtom (AChr BSL); RAtom ADot;
                               rstr "0" ];
                        rstr "::1" ]);
         REol ].

(** Line 22: [/\.local$/i]. *)
Definition reDotLocal : regex := RCat (rstr ".local") REol.

(** Line 26: [/^\\d+\\.\\d+\\.\\d+\\.\\d+$/]: a backslash, one or more [d],
    a backslash, any character, and so on. *)
Definition reDottedQuad : regex :=
  rseq [ RBol;
         RAtom (AChr BSL); RPlus (AChr "d"%char); RAtom (AChr BSL); RAtom ADot;
         RAtom (AChr BSL); RPlus (AChr "d"%char); RAtom (AChr BSL); RAtom ADot;
         RAtom (AChr BSL); RPlus (AChr "d"%char); RAtom (AChr BSL); RAtom ADot;
         RAtom (AChr BSL); RPlus (AChr "d"%char);
         REol ].

(** Line 51: [/<meta[^>]*http-equiv=["']Content-Security-Policy["'][^>]*>/ig]. *)
Definition reCspMeta : regex :=
  rseq [ rstr "<meta"; RStar (ASet true [">"%char]);
         rstr "http-equiv="; RAtom (ASet false [DQ; SQ]);
         rstr "Content-Security-Policy"; RAtom (ASet false [DQ; SQ]);
         RStar (ASet true [">"%char]); rstr ">" ].

(** Line 64: [/(src|href|action)=("|\')([^"\'>]+)\\2/ig]: the value is
    followed by a backslash and the digit 2. *)
Definition reAttr : regex :=
  rseq [ RCap 1 (ralt [rstr "src"; rstr "href"; rstr "action"]);
         rstr "=";
         RCap 2 (RAlt (RAtom (AChr DQ)) (RAtom (AChr SQ)));
         RCap 3 (RPlus (ASet true [DQ; SQ; ">"%char]));
         RAtom (AChr BSL); rstr "2" ].

(** Line 67: [/srcset=("|\')([^"']+)\\1/ig]. *)
Definition reSrcset : regex :=
  rseq [ rstr "srcset=";
         RCap 1 (RAlt (RAtom (AChr DQ)) (RAtom (AChr SQ)));
         RCap 2 (RPlus (ASet true [DQ; SQ]));
         RAtom (AChr BSL); rstr "1" ].

(** Line 71: [/\s+/]. *)
Definition reSpaces : regex := RPlus AWs.

(** ** Values of the handler *)

(** A value that is a string or [undefined] (or [null]). *)
Definition jsval := option str.

(** Truthiness: [undefined] and the empty string are falsy. *)
Definition truthy (v : jsval) : bool :=
  match v with
  | Some (_ :: _) => true
  | _ => false
  end.

(** [a || b]. *)
Definition jsOr (a b : jsval) : jsval := if truthy a then a else b.

(** [a || ''] read as a string. *)
Definition orEmpty (a : jsval) : str :=
  match jsOr a (Some []) with
  | Some s => s
  | None => []
  end.

(** What the handler reads of a [URL] object. *)
Record URL : Type := mkURL {
  protocol : str;
  hostname : str;
  href : str   (* toString() *)
}.

Record request : Type := mkRequest {
  query_url : jsval;        (* req.query && req.query.url *)
  header_target : jsval;    (* req.headers['x-target-url'] *)
  header_api_key : jsval;   (* req.headers['x-api-key'] *)
  req_protocol : jsval;     (* req.protocol *)
  header_host : jsval       (* req.headers.host *)
}.

(** [process.env]. *)
Record environment : Type := mkEnv {
  API_KEY : jsval;
  ALLOWLIST : jsval
}.

(** The response as the handler leaves it: the status, the headers set with
    [setHeader] (latest first) and the argument of [send]. *)
Record response : Type := mkResponse {
  status : nat;
  headers : list (str * str);
  body : str
}.

(** What the handler reads of the upstream response. *)
Record upstream : Type := mkUpstream {
  up_status : nat;
  up_content_type : jsval;  (* headers.get('content-type') *)
  up_text : str;            (* await text() *)
  up_bytes : str            (* await arrayBuffer() *)
}.

Definition send (code : nat) (hs : list (str * str)) (b : str) : response :=
  {| status := code; headers := hs; body := b |}.

Fixpoint getHeader (name : str) (hs : list (str * str)) : option str :=
  match hs with
  | [] => None
  | (n, v) :: hs' => if str_eqb n name then Some v else getHeader name hs'
  end.

(** The fixed replies of the validation stage (the dash of the 401 text is
    spelled by its UTF-8 bytes). *)
Definition missingUrl : response := send 400 [] (dq "Missing `url` query parameter").
Definition unauthorized : response := send 401 [] (lit "Unauthorized — invalid API key").
Definition invalidUrl : response := send 400 [] (lit "Invalid URL").
Definition badScheme : response := send 400 [] (lit "Only http/https allowed").
Definition forbiddenHost : response := send 403 [] (lit "Forbidden host").
Definition forbiddenIp : response := send 403 [] (lit "Forbidden IP range").
Definition notAllowlisted : response := send 403 [] (lit "Host not allowed by allowlist").

(** Early return: [if (c) return r; rest]. *)
Definition returnIf {A : Type} (c : bool) (r : response) (rest : response + A) : response + A :=
  if c then inl r else rest.

Notation "'If' c 'Return' r ;; rest" := (returnIf c r rest)
  (at level 10, c at level 9, r at level 9, rest at level 200).

(** [try { body } catch (e) { handler }]: a body that throws is [None]. *)
Definition tryCatch {A : Type} (body : option A) (handler : A) : A :=
  match body with
  | Some v => v
  | None => handler
  end.

Fixpoint mapM {A B : Type} (f : A -> option B) (l : list A) : option (list B) :=
  match l with
  | [] => Some []
  | x :: l' =>
      match f x with
      | None => None
      | Some y => match mapM f l' with
                  | None => None
                  | Some ys => Some (y :: ys)
                  end
      end
  end.

(** ** [encodeURIComponent] on code units below 256 *)

Definition hexDigit (n : nat) : ascii := nth n (lit "0123456789ABCDEF") "0"%char.

Definition pct (n : nat) : str := ["%"%char; hexDigit (n / 16); hexDigit (n mod 16)].

Definition isUnreserved (c : ascii) : bool :=
  let n := nat_of_ascii c in
  ((48 <=? n) && (n <=? 57)) || ((65 <=? n) && (n <=? 90)) || ((97 <=? n) && (n <=? 122))
  || existsb (Ascii.eqb c) (lit "-_.!~*'()").

Definition encodeUnit (c : ascii) : str :=
  let n := nat_of_ascii c in
  if isUnreserved c then [c]
  else if n <? 128 then pct n
  else pct (192 + n / 64) ++ pct (128 + n mod 64).

Definition encodeURIComponent (s : str) : str := flat_map encodeUnit s.

(** ** The handler *)

(** The first piece of [s.split(re)]: the text before the first index at which
    [re] matches (an empty match at index 0 does not split). *)
Fixpoint splitHeadFrom (re : regex) (n0 : nat) (first : bool) (s : str) : str :=
  match s with
  | [] => []
  | c :: s' =>
      match matchAt false n0 re s with
      | Some (0, _) => if first then c :: splitHeadFrom re n0 false s' else []
      | Some (S _, _) => []
      | None => c :: splitHeadFrom re n0 false s'
      end
  end.

Definition splitHead (re : regex) (s : str) : str := splitHeadFrom re (length s) true s.

(** [parts[i]] compared with a number; [undefined] compares false. *)
Definition numEq (x : option float) (n : float) : bool :=
  match x with Some v => PrimFloat.eqb v n | None => false end.
Definition numGe (x : option float) (n : float) : bool :=
  match x with Some v => PrimFloat.leb n v | None => false end.
Definition numLe (x : option float) (n : float) : bool :=
  match x with Some v => PrimFloat.leb v n | None => false end.

Section Handler.
(** [new URL(s)]: [None] when it throws. *)
Variable parseURL : str -> option URL.
(** [new URL(val, target).toString()]: [None] when it throws. *)
Variable resolveURL : str -> URL -> option str.
(** [Number(s)]. *)
Variable Number : str -> float.
(** [await fetch(url, {redirect: 'follow'})] with the body read: the error
    message when the promise is rejected. *)
Variable fetch : str -> str + upstream.
Variable env : environment.

(** Lines 21-24. *)
Definition isLocalHost (host : str) : bool :=
  test false reLocalHost host || test true reDotLocal host.

(** Lines 26-33. *)
Definition isPrivateIp (host : str) : bool :=
  test false reDottedQuad host &&
  (let parts := map Number (splitOn "."%char host) in
   numEq (nth_error parts 0) 10
   || (numEq (nth_error parts 0) 172 && numGe (nth_error parts 1) 16
       && numLe (nth_error parts 1) 31)
   || (numEq (nth_error parts 0) 192 && numEq (nth_error parts 1) 168)).

(** Line 36. *)
Definition allowlist : list str :=
  filter (fun s => truthy (Some s))
         (map trim (splitOn ","%char (orEmpty (ALLOWLIST env)))).

(** Line 38. *)
Definition allowed (host : str) : bool :=
  existsb (fun a => str_eqb a host || endsWith host ("."%char :: a)) allowlist.

(** Lines 5-40: the reply of the first gate that fails, or the target. *)
Definition validate (req : request) : response + URL :=
  let targetUrl := jsOr (query_url req) (header_target req) in
  If (negb (truthy targetUrl)) Return missingUrl ;;
  let key := orEmpty (API_KEY env) in
  If (truthy (Some key) && negb (str_eqb (orEmpty (header_api_key req)) key))
    Return unauthorized ;;
  match parseURL (orEmpty targetUrl) with
  | None => inl invalidUrl
  | Some target =>
      If (negb (existsb (str_eqb (protocol target)) [lit "http:"; lit "https:"]))
        Return badScheme ;;
      let host := hostname target in
      If (isLocalHost host) Return forbiddenHost ;;
      If (isPrivateIp host) Return forbiddenIp ;;
      If ((0 <? length allowlist) && negb (allowed host)) Return notAllowlisted ;;
      inr target
  end.

(** Lines 58 and 74. *)
Definition proxyBase (req : request) : str :=
  orEmpty (jsOr (req_protocol req) (Some (lit "https")))
  ++ lit "://"
  ++ match header_host req with Some h => h | None => lit "undefined" end
  ++ lit "/api/proxy".

Definition proxied (req : request) (abs : str) : str :=
  proxyBase req ++ lit "?url=" ++ encodeURIComponent abs.

Definition group (n : nat) (cs : captures) : str :=
  match capture n cs with Some v => v | None => [] end.

(** Lines 55-63: [rewriteAttr(m, attr, q, val)]. *)
Definition rewriteAttr (req : request) (target : URL) (m : str) (cs : captures) : str :=
  let attr := group 1 cs in
  let q := group 2 cs in
  let val := group 3 cs in
  tryCatch
    (match resolveURL val target with
     | None => None
     | Some abs => Some (attr ++ lit "=" ++ q ++ proxied req abs ++ q)
     end)
    m.

(** Lines 70-75: one candidate of a srcset. *)
Definition rewriteCandidate (req : request) (target : URL) (part : str) : option str :=
  let urlPart := splitHead reSpaces part in
  let rest := skipn (length urlPart) part in
  match resolveURL urlPart target with
  | None => None
  | Some abs => Some (proxied req abs ++ rest)
  end.

(** Lines 67-81: the srcset callback [(m, q, val)]. *)
Definition rewriteSrcset (req : request) (target : URL) (m : str) (cs : captures) : str :=
  let q := group 1 cs in
  let val := group 2 cs in
  tryCatch
    (let parts := map trim (splitOn ","%char val) in
     match mapM (rewriteCandidate req target) parts with
     | None => None
     | Some rewritten => Some (lit "srcset=" ++ q ++ join (lit ", ") rewritten ++ q)
     end)
    m.

(** Line 51. *)
Definition removeCsp (html : str) : str :=
  replaceAll true reCspMeta (fun _ _ => []) html.

(** Line 64. *)
Definition rewriteAttrs (req : request) (target : URL) (html : str) : str :=
  replaceAll true reAttr (rewriteAttr req target) html.

(** Line 67. *)
Definition rewriteSrcsets (req : request) (target : URL) (html : str) : str :=
  replaceAll true reSrcset (rewriteSrcset req target) html.

(** Lines 48-81. *)
Definition rewriteHtml (req : request) (target : URL) (html : str) : str :=
  rewriteSrcsets req target (rewriteAttrs req target (removeCsp html)).

Definition isHtml (up : upstream) : bool :=
  includes (orEmpty (up_content_type up)) (lit "text/html").

(** Lines 44-98. *)
Definition respond (req : request) (target : URL) (up : upstream) : response :=
  if isHtml up then
    send 200
         [ (lit "Content-Security-Policy", lit "frame-ancestors *");
           (lit "content-type", lit "text/html; charset=utf-8") ]
         (rewriteHtml req target (up_text up))
  else
    send (up_status up)
         (if truthy (up_content_type up)
          then [ (lit "content-type", orEmpty (up_content_type up)) ]
          else [])
         (up_bytes up).

(** Lines 3-103. *)
Definition handler (req : request) : response :=
  match validate req with
  | inl r => r
  | inr target =>
      match fetch (href target) with
      | inl message => send 502 [] (lit "Proxy error: " ++ message)
      | inr up => respond req target up
      end
  end.
End Handler.

(** ** Properties of patterns read off their syntax *)

Definition allAscii : list ascii := map ascii_of_nat (seq 0 256).

(** The one-character matcher accepts the character [c0] and no other. *)
Definition atomOnly (ci : bool) (c0 : ascii) (a : atom) : bool :=
  forallb (fun c => implb (atomb ci a c) (Ascii.eqb c c0)) allAscii.

(** No [^] and no [$]: a match does not depend on where it stands. *)
Fixpoint anchorFree (r : regex) : bool :=
  match r with
  | RNil | RAtom _ | RStar _ | RPlus _ => true
  | RCat r1 r2 | RAlt r1 r2 => anchorFree r1 && anchorFree r2
  | RCap _ r1 => anchorFree r1
  | RBol | REol => false
  end.

(** No text matched by the pattern contains [c0]. *)
Fixpoint avoids (ci : bool) (c0 : ascii) (r : regex) : bool :=
  match r with
  | RNil | RBol | REol => true
  | RAtom a | RStar a | RPlus a => negb (atomb ci a c0)
  | RCat r1 r2 | RAlt r1 r2 => avoids ci c0 r1 && avoids ci c0 r2
  | RCap _ r1 => avoids ci c0 r1
  end.

(** Every text matched by the pattern ends with its only [c0]. *)
Fixpoint endsOnly (ci : bool) (c0 : ascii) (r : regex) : bool :=
  match r with
  | RAtom a => atomOnly ci c0 a
  | RCat r1 r2 => avoids ci c0 r1 && endsOnly ci c0 r2
  | RAlt r1 r2 => endsOnly ci c0 r1 && endsOnly ci c0 r2
  | RCap _ r1 => endsOnly ci c0 r1
  | _ => false
  end.

(** Every text matched by the pattern contains [c0]. *)
Fixpoint demands (ci : bool) (c0 : ascii) (r : regex) : bool :=
  match r with
  | RAtom a | RPlus a => atomOnly ci c0 a
  | RCat r1 r2 => demands ci c0 r1 || demands ci c0 r2
  | RAlt r1 r2 => demands ci c0 r1 && demands ci c0 r2
  | RCap _ r1 => demands ci c0 r1
  | _ => false
  end.

(** The character [c] occurs in [s]. *)
Definition hasChar (c : ascii) (s : str) : bool := existsb (Ascii.eqb c) s.

(** What a pass that replaces every match by the empty string leaves of [s]. *)
Definition deleted (ci : bool) (re : regex) (n0 fuel : nat) (s : str) : str :=
  concat (map (segOut (fun _ _ => [])) (scanF ci n0 re fuel s)).


(** ** The validation gates, one by one

    The gates of the validation stage in their fixed order, each with the
    condition under which it fails taken on its own, and the reply it sends.
    [firstFailing] is the earliest gate of the order that fails; it is compared
    below with what [validate] returns. *)

Inductive gate : Type :=
| GPresence | GApiKey | GParse | GScheme | GHost | GIpRange | GAllowlist.

Definition gateOrder : list gate :=
  [GPresence; GApiKey; GParse; GScheme; GHost; GIpRange; GAllowlist].

Definition gateIndex (g : gate) : nat :=
  match g with
  | GPresence => 0 | GApiKey => 1 | GParse => 2 | GScheme => 3
  | GHost => 4 | GIpRange => 5 | GAllowlist => 6
  end.

Definition rejection (g : gate) : response :=
  match g with
  | GPresence => missingUrl
  | GApiKey => unauthorized
  | GParse => invalidUrl
  | GScheme => badScheme
  | GHost => forbiddenHost
  | GIpRange => forbiddenIp
  | GAllowlist => notAllowlisted
  end.

Section Gates.
Variable parseURL : str -> option URL.
Variable Number : str -> float.
Variable env : environment.

Definition targetUrlOf (req : request) : jsval :=
  jsOr (query_url req) (header_target req).

Definition targetOf (req : request) : option URL :=
  parseURL (orEmpty (targetUrlOf req)).

Definition onTarget (req : request) (p : URL -> bool) : bool :=
  match targetOf req with
  | Some target => p target
  | None => false
  end.

Definition gateFails (req : request) (g : gate) : bool :=
  match g with
  | GPresence => negb (truthy (targetUrlOf req))
  | GApiKey =>
      truthy (API_KEY env)
      && negb (str_eqb (orEmpty (header_api_key req)) (orEmpty (API_KEY env)))
  | GParse => match targetOf req with None => true | Some _ => false end
  | GScheme =>
      onTarget req (fun t => negb (str_eqb (protocol t) (lit "http:")
                                   || str_eqb (protocol t) (lit "https:")))
  | GHost => onTarget req (fun t => isLocalHost (hostname t))
  | GIpRange => onTarget req (fun t => isPrivateIp Number (hostname t))
  | GAllowlist =>
      onTarget req (fun t => negb (match allowlist env with [] => true | _ :: _ => false end)
                             && negb (allowed env (hostname t)))
  end.

Definition firstFailing (req : request) : option gate :=
  find (gateFails req) gateOrder.
End Gates.

(** ** Sample inputs *)

Definition sampleBase : URL :=
  mkURL (lit "https:") (lit "a.test") (lit "https://a.test/dir/page").

Definition urlOfHost (host : string) : URL :=
  mkURL (lit "http:") (lit host) (lit "http://" ++ lit host ++ lit "/").

Definition noEnv : environment := mkEnv None None.
Definition exampleAllowlist : environment := mkEnv None (Some (lit "example.com")).
Definition secretEnv : environment := mkEnv (Some (lit "secret")) None.

(** [req] with the header [x-api-key] set to [h] (or removed). *)
Definition withApiKey (h : jsval) (req : request) : request :=
  mkRequest (query_url req) (header_target req) h (req_protocol req) (header_host req).

(** [req] with the header [x-target-url] set to [h] (or removed). *)
Definition withTargetHeader (h : jsval) (req : request) : request :=
  mkRequest (query_url req) h (header_api_key req) (req_protocol req) (header_host req).

(** [req] with the query parameter [url] set to [q] (or removed). *)
Definition withQuery (q : jsval) (req : request) : request :=
  mkRequest q (header_target req) (header_api_key req) (req_protocol req) (header_host req).

(** A request for [url], arriving at [https://proxy.test]. *)
Definition requestFor (url : str) : request :=
  mkRequest (Some url) None None (Some (lit "https")) (Some (lit "proxy.test")).

(** [new URL] known at one absolute URL only, for running the handler on it. *)
Definition parseOnly (u : URL) : str -> option URL :=
  fun s => if str_eqb s (href u) then Some u else None.

(** What the handler does once a target is validated (lines 43-98). *)
Definition fetched (resolveURL : str -> URL -> option str) (fetch : str -> str + upstream)
           (req : request) (target : URL) : response :=
  match fetch (href target) with
  | inl message => send 502 [] (lit "Proxy error: " ++ message)
  | inr up => respond resolveURL req target up
  end.

Definition imgAbsolute : str := dq "<img src=`https://cdn.test/x.png`>".
Definition anchorRelative : str := dq "<a href=`../other.html`>".
Definition imgSrcset : str := dq "<img srcset=`img1.png 1x, img2.png 2x`>".

Definition pngUpstream : upstream :=
  mkUpstream 404 (Some (lit "image/png")) (lit "PNG") (lit "PNG").
Definition htmlUpstream : upstream :=
  mkUpstream 404 (Some (lit "text/html; charset=iso-8859-1")) imgAbsolute imgAbsolute.


Unset Implicit Arguments.

(** ** Strings: basic facts *)

Lemma str_eqb_eq (a b : str) : str_eqb a b = true <-> a = b.
Proof.
  revert b; induction a as [|x a IH]; intros [|y b]; simpl; split; intro H;
    try reflexivity; try discriminate.
  - apply andb_true_iff in H as [Hx Hab].
    apply Ascii.eqb_eq in Hx. apply IH in Hab. now subst.
  - injection H as -> ->. apply andb_true_iff; split.
    + apply Ascii.eqb_refl.
    + now apply IH.
Qed.

Lemma str_eqb_refl (a : str) : str_eqb a a = true.
Proof. now apply str_eqb_eq. Qed.

Lemma endsWith_spec (s p : str) :
  endsWith s p = true <-> exists pre, s = pre ++ p.
Proof.
  unfold endsWith; split.
  - intros H. apply andb_true_iff in H as [Hlen Heq].
    apply str_eqb_eq in Heq. exists (firstn (length s - length p) s).
    pose proof (firstn_skipn (length s - length p) s) as E.
    rewrite Heq in E. now symmetry.
  - intros [pre ->]. rewrite length_app. apply andb_true_iff; split.
    + apply Nat.leb_le; lia.
    + replace (length pre + length p - length p) with (length pre + 0) by lia.
      rewrite skipn_app, Nat.add_0_r, skipn_all. simpl.
      replace (length pre - length pre) with 0 by lia. simpl.
      apply str_eqb_refl.
Qed.

Lemma first_occurrence_unique (c : ascii) (u1 u2 r1 r2 : str) :
  u1 ++ c :: r1 = u2 ++ c :: r2 -> ~ In c u1 -> ~ In c u2 -> u1 = u2 /\ r1 = r2.
Proof.
  revert u2; induction u1 as [|x u1 IH]; intros [|y u2] E H1 H2; simpl in *.
  - injection E as ->. now split.
  - injection E as -> _. exfalso; apply H2; now left.
  - injection E as -> _. exfalso; apply H1; now left.
  - injection E as -> E. destruct (IH u2 E) as [-> ->].
    + intro; apply H1; now right.
    + intro; apply H2; now right.
    + now split.
Qed.

(** ** The matcher against the language of a pattern *)

Section MatcherFacts.
Variable R : Type.
Variable ci : bool.
Variable n0 : nat.

Lemma star_sound (p : ascii -> bool) (s : str) (k : str -> option R) (res : R) :
  star p s k = Some res ->
  exists t post, s = t ++ post /\ Forall (fun c => p c = true) t /\ k post = Some res.
Proof.
  induction s as [|c s IH]; simpl; intro H.
  - exists [], []. now repeat split.
  - destruct (p c) eqn:Hc.
    + destruct (star p s k) as [r|] eqn:Hs.
      * injection H as ->. destruct (IH eq_refl) as (t & post & -> & Ht & Hk).
        exists (c :: t), post. repeat split; auto.
      * exists [], (c :: s). now repeat split.
    + exists [], (c :: s). now repeat split.
Qed.

Lemma star_complete (p : ascii -> bool) (t post : str) (k : str -> option R) :
  Forall (fun c => p c = true) t -> k post <> None -> star p (t ++ post) k <> None.
Proof.
  intros Ht Hk. induction Ht as [|c t Hc Ht IH]; simpl.
  - destruct post as [|c s]; simpl; auto.
    destruct (p c); auto. destruct (star p s k); [discriminate | auto].
  - rewrite Hc. destruct (star p (t ++ post) k); [discriminate | contradiction].
Qed.

Lemma exec_sound (r : regex) :
  forall (s : str) (cs : captures) (k : str -> captures -> option R) (res : R),
    exec ci n0 r s cs k = Some res ->
    exists t post cs', s = t ++ post /\ lang ci n0 r t post /\ k post cs' = Some res.
Proof.
  induction r as [|a|a|a|r1 IH1 r2 IH2|r1 IH1 r2 IH2|n r1 IH1| |];
    intros s cs k res H; simpl in H.
  - exists [], s, cs. now repeat split.
  - destruct s as [|c s]; [discriminate|].
    destruct (atomb ci a c) eqn:Hc; [|discriminate].
    exists [c], s, cs. repeat split; auto. now exists c.
  - apply star_sound in H as (t & post & -> & Ht & Hk).
    exists t, post, cs. now repeat split.
  - destruct s as [|c s]; [discriminate|].
    destruct (atomb ci a c) eqn:Hc; [|discriminate].
    apply star_sound in H as (t & post & -> & Ht & Hk).
    exists (c :: t), post, cs. repeat split; auto. discriminate.
  - apply IH1 in H as (t1 & post1 & cs1 & -> & L1 & H).
    apply IH2 in H as (t2 & post & cs2 & -> & L2 & H).
    exists (t1 ++ t2), post, cs2. repeat split; auto.
    + now rewrite app_assoc.
    + now exists t1, t2.
  - destruct (exec ci n0 r1 s cs k) as [x|] eqn:H1.
    + injection H as ->. apply IH1 in H1 as (t & post & cs' & -> & L & Hk).
      exists t, post, cs'. repeat split; auto. now left.
    + apply IH2 in H as (t & post & cs' & -> & L & Hk).
      exists t, post, cs'. repeat split; auto. now right.
  - apply IH1 in H as (t & post & cs' & -> & L & Hk).
    eexists t, post, _. repeat split; eauto.
  - destruct (length s =? n0) eqn:E; [|discriminate].
    apply Nat.eqb_eq in E. exists [], s, cs. now repeat split.
  - destruct s; [|discriminate]. exists [], [], cs. now repeat split.
Qed.

Lemma exec_complete (r : regex) :
  forall (t post : str) (cs : captures) (k : str -> captures -> option R),
    lang ci n0 r t post ->
    (forall cs', k post cs' <> None) ->
    exec ci n0 r (t ++ post) cs k <> None.
Proof.
  induction r as [|a|a|a|r1 IH1 r2 IH2|r1 IH1 r2 IH2|n r1 IH1| |];
    intros t post cs k L Hk; simpl in L; simpl.
  - subst t. apply Hk.
  - destruct L as (c & -> & Hc). simpl. rewrite Hc. apply Hk.
  - now apply star_complete.
  - destruct L as [Hne Ht]. destruct Ht as [|c t Hc Ht]; [contradiction|].
    simpl. rewrite Hc. now apply star_complete.
  - destruct L as (t1 & t2 & -> & L1 & L2). rewrite <- app_assoc.
    apply IH1; [assumption|]. intros cs'. now apply IH2.
  - destruct (exec ci n0 r1 (t ++ post) cs k) eqn:E; [discriminate|].
    destruct L as [L|L]; [|now apply IH2].
    exfalso. now apply (IH1 t post cs k L Hk).
  - apply IH1; auto.
  - destruct L as [-> Hlen]. simpl. apply Nat.eqb_eq in Hlen. rewrite Hlen. apply Hk.
  - destruct L as [-> ->]. apply Hk.
Qed.
End MatcherFacts.

Lemma matchAt_sound (ci : bool) (n0 : nat) (re : regex) (s : str) (n : nat) (cs : captures) :
  matchAt ci n0 re s = Some (n, cs) ->
  exists t post, s = t ++ post /\ n = length t /\ lang ci n0 re t post.
Proof.
  unfold matchAt; intro H.
  apply exec_sound in H as (t & post & cs' & -> & L & H).
  injection H as <- _. exists t, post. repeat split; auto.
  rewrite length_app; lia.
Qed.

Lemma matchAt_complete (ci : bool) (n0 : nat) (re : regex) (t post : str) :
  lang ci n0 re t post -> matchAt ci n0 re (t ++ post) <> None.
Proof.
  intro L. unfold matchAt. apply exec_complete; auto. discriminate.
Qed.

Lemma matchAt_split (ci : bool) (n0 : nat) (re : regex) (s : str) (n : nat) (cs : captures) :
  matchAt ci n0 re s = Some (n, cs) ->
  s = firstn n s ++ skipn n s /\ length (firstn n s) = n /\
  lang ci n0 re (firstn n s) (skipn n s).
Proof.
  intro H. apply matchAt_sound in H as (t & post & -> & -> & L).
  rewrite firstn_app, skipn_app, Nat.sub_diag, firstn_all, skipn_all. simpl.
  rewrite app_nil_r. auto.
Qed.

(** The pieces of a scan spell the subject. *)
Lemma scanF_src (ci : bool) (n0 : nat) (re : regex) (fuel : nat) :
  forall s, length s < fuel -> concat (map segSrc (scanF ci n0 re fuel s)) = s.
Proof.
  induction fuel as [|fuel IH]; intros s Hlen; [lia|].
  destruct s as [|c s]; simpl.
  - destruct (matchAt ci n0 re []) as [[n cs]|]; reflexivity.
  - simpl in Hlen.
    destruct (matchAt ci n0 re (c :: s)) as [[[|n] cs]|] eqn:E; simpl.
    + f_equal. apply IH; lia.
    + apply matchAt_split in E as (E1 & E2 & _). simpl in E1, E2.
      rewrite IH.
      * simpl. now injection E1 as <-.
      * injection E2 as E2. rewrite length_skipn. lia.
    + f_equal. apply IH; lia.
Qed.

Lemma scan_src (ci : bool) (re : regex) (s : str) :
  concat (map segSrc (scan ci re s)) = s.
Proof. apply scanF_src. lia. Qed.


(** ** Patterns: what their syntax guarantees *)

Lemma In_allAscii (c : ascii) : In c allAscii.
Proof.
  unfold allAscii. rewrite <- (ascii_nat_embedding c).
  apply in_map, in_seq. pose proof (nat_ascii_bounded c). lia.
Qed.

Lemma atomOnly_sound (ci : bool) (c0 : ascii) (a : atom) (c : ascii) :
  atomOnly ci c0 a = true -> atomb ci a c = true -> c = c0.
Proof.
  unfold atomOnly; intros H Hc. rewrite forallb_forall in H.
  specialize (H c (In_allAscii c)). rewrite Hc in H. simpl in H.
  now apply Ascii.eqb_eq.
Qed.

Lemma avoids_sound (ci : bool) (n0 : nat) (c0 : ascii) (r : regex) :
  avoids ci c0 r = true -> forall t post, lang ci n0 r t post -> ~ In c0 t.
Proof.
  induction r as [|a|a|a|r1 IH1 r2 IH2|r1 IH1 r2 IH2|n r1 IH1| |];
    simpl; intros A t post L.
  - subst t. auto.
  - destruct L as (c & -> & Hc). intros [->|[]].
    rewrite Hc in A. discriminate.
  - intro Hin. rewrite Forall_forall in L. rewrite (L _ Hin) in A. discriminate.
  - destruct L as [_ L]. intro Hin. rewrite Forall_forall in L.
    rewrite (L _ Hin) in A. discriminate.
  - apply andb_true_iff in A as [A1 A2]. destruct L as (t1 & t2 & -> & L1 & L2).
    intro Hin. apply in_app_or in Hin as [Hin|Hin].
    + now apply (IH1 A1 _ _ L1).
    + now apply (IH2 A2 _ _ L2).
  - apply andb_true_iff in A as [A1 A2]. destruct L as [L|L]; eauto.
  - eauto.
  - destruct L as [-> _]. auto.
  - destruct L as [-> _]. auto.
Qed.

Lemma endsOnly_sound (ci : bool) (n0 : nat) (c0 : ascii) (r : regex) :
  endsOnly ci c0 r = true ->
  forall t post, lang ci n0 r t post -> exists u, t = u ++ [c0] /\ ~ In c0 u.
Proof.
  induction r as [|a|a|a|r1 IH1 r2 IH2|r1 IH1 r2 IH2|n r1 IH1| |];
    simpl; intros A t post L; try discriminate.
  - destruct L as (c & -> & Hc). exists []. split; auto.
    now rewrite (atomOnly_sound _ _ _ _ A Hc).
  - apply andb_true_iff in A as [A1 A2]. destruct L as (t1 & t2 & -> & L1 & L2).
    destruct (IH2 A2 _ _ L2) as (u & -> & Hu). exists (t1 ++ u).
    split; [now rewrite app_assoc|].
    intro Hin. apply in_app_or in Hin as [Hin|Hin]; auto.
    now apply (avoids_sound _ _ _ _ A1 _ _ L1).
  - apply andb_true_iff in A as [A1 A2]. destruct L as [L|L]; eauto.
  - eauto.
Qed.

Lemma demands_sound (ci : bool) (n0 : nat) (c0 : ascii) (r : regex) :
  demands ci c0 r = true -> forall t post, lang ci n0 r t post -> In c0 t.
Proof.
  induction r as [|a|a|a|r1 IH1 r2 IH2|r1 IH1 r2 IH2|n r1 IH1| |];
    simpl; intros A t post L; try discriminate.
  - destruct L as (c & -> & Hc). left. now apply (atomOnly_sound _ _ _ _ A Hc).
  - destruct L as [Hne L]. destruct L as [|c t Hc L]; [contradiction|].
    left. now apply (atomOnly_sound _ _ _ _ A Hc).
  - destruct L as (t1 & t2 & -> & L1 & L2). apply in_or_app.
    apply orb_true_iff in A as [A|A]; eauto.
  - apply andb_true_iff in A as [A1 A2]. destruct L as [L|L]; eauto.
  - eauto.
Qed.

Lemma lang_anchorFree (ci : bool) (r : regex) :
  anchorFree r = true ->
  forall n0 n1 t post post', lang ci n0 r t post -> lang ci n1 r t post'.
Proof.
  induction r as [|a|a|a|r1 IH1 r2 IH2|r1 IH1 r2 IH2|n r1 IH1| |];
    simpl; intros A n0 n1 t post post' L; try discriminate; auto.
  - apply andb_true_iff in A as [A1 A2]. destruct L as (t1 & t2 & -> & L1 & L2).
    exists t1, t2. repeat split; eauto.
  - apply andb_true_iff in A as [A1 A2]. destruct L as [L|L]; [left|right]; eauto.
  - eauto.
Qed.


(** ** A scan does not depend on its fuel, nor on the subject's length when
       the pattern has no anchor *)

Lemma star_ext (R : Type) (p : ascii -> bool) (s : str) (k k' : str -> option R) :
  (forall s', k s' = k' s') -> star p s k = star p s k'.
Proof.
  intro H. induction s as [|c s IH]; simpl; auto.
  rewrite IH, H. reflexivity.
Qed.

Lemma exec_anchorFree (R : Type) (ci : bool) (n0 n1 : nat) (r : regex) :
  anchorFree r = true ->
  forall s cs (k k' : str -> captures -> option R),
    (forall s' cs', k s' cs' = k' s' cs') ->
    exec ci n0 r s cs k = exec ci n1 r s cs k'.
Proof.
  induction r as [|a|a|a|r1 IH1 r2 IH2|r1 IH1 r2 IH2|n r1 IH1| |];
    simpl; intros A s cs k k' H; try discriminate.
  - apply H.
  - destruct s as [|c s]; [reflexivity|]. destruct (atomb ci a c); [apply H|reflexivity].
  - apply star_ext. intro; apply H.
  - destruct s as [|c s]; [reflexivity|].
    destruct (atomb ci a c); [|reflexivity]. apply star_ext. intro; apply H.
  - apply andb_true_iff in A as [A1 A2]. apply IH1; [assumption|].
    intros s' cs'. now apply IH2.
  - apply andb_true_iff in A as [A1 A2].
    rewrite (IH1 A1 s cs k k' H), (IH2 A2 s cs k k' H). reflexivity.
  - apply IH1; [assumption|]. intros s' cs'. apply H.
Qed.

Lemma matchAt_anchorFree (ci : bool) (n0 n1 : nat) (re : regex) (s : str) :
  anchorFree re = true -> matchAt ci n0 re s = matchAt ci n1 re s.
Proof. intro A. unfold matchAt. now apply exec_anchorFree. Qed.

Lemma scanF_hit (ci : bool) (n0 : nat) (re : regex) (fuel : nat) (s : str) n cs :
  matchAt ci n0 re s = Some (S n, cs) ->
  scanF ci n0 re (S fuel) s
  = Hit (firstn (S n) s) cs :: scanF ci n0 re fuel (skipn (S n) s).
Proof.
  intro E. destruct s as [|c s].
  - apply matchAt_split in E as (_ & E & _). discriminate.
  - simpl scanF. rewrite E. reflexivity.
Qed.

Lemma scanF_miss (ci : bool) (n0 : nat) (re : regex) (fuel : nat) (c : ascii) (s : str) :
  matchAt ci n0 re (c :: s) = None ->
  scanF ci n0 re (S fuel) (c :: s) = Keep c :: scanF ci n0 re fuel s.
Proof. intro E. simpl scanF. rewrite E. reflexivity. Qed.

Lemma scanF_anchorFree (ci : bool) (n0 n1 : nat) (re : regex) :
  anchorFree re = true ->
  forall fuel fuel' s, length s < fuel -> length s < fuel' ->
    scanF ci n0 re fuel s = scanF ci n1 re fuel' s.
Proof.
  intro A. induction fuel as [|fuel IH]; intros fuel' s H H'; [lia|].
  destruct fuel' as [|fuel']; [lia|].
  destruct s as [|c s]; simpl.
  - rewrite (matchAt_anchorFree ci n0 n1 re [] A). reflexivity.
  - simpl in H, H'. rewrite (matchAt_anchorFree ci n0 n1 re (c :: s) A).
    destruct (matchAt ci n1 re (c :: s)) as [[[|n] cs]|] eqn:E.
    + do 2 f_equal. apply IH; lia.
    + f_equal. apply matchAt_split in E as (_ & E & _). simpl in E.
      apply IH; rewrite length_skipn; lia.
    + f_equal. apply IH; lia.
Qed.

(** ** One pass over a pattern whose matches end with their only [c0] *)

Section Occurrences.
Variable ci : bool.
Variable re : regex.
Variable c0 : ascii.
Hypothesis re_free : anchorFree re = true.
Hypothesis re_ends : endsOnly ci c0 re = true.


End Occurrences.

(** ** Patterns that demand a character the subject does not have *)

Lemma hasChar_In (c : ascii) (s : str) : hasChar c s = false -> ~ In c s.
Proof.
  unfold hasChar. intros H Hin.
  assert (E : existsb (Ascii.eqb c) s = true).
  { apply existsb_exists. exists c. split; [assumption|apply Ascii.eqb_refl]. }
  rewrite E in H. discriminate.
Qed.

Lemma matchAt_demands (ci : bool) (n0 : nat) (c0 : ascii) (re : regex) (s : str) :
  demands ci c0 re = true -> ~ In c0 s -> matchAt ci n0 re s = None.
Proof.
  intros D Hs. destruct (matchAt ci n0 re s) as [[n cs]|] eqn:E; [|reflexivity].
  apply matchAt_sound in E as (t & post & -> & _ & L).
  exfalso. apply Hs, in_or_app. left. exact (demands_sound _ _ _ _ D _ _ L).
Qed.

Lemma test_demands (ci : bool) (c0 : ascii) (re : regex) (s : str) :
  demands ci c0 re = true -> ~ In c0 s -> test ci re s = false.
Proof.
  intros D. unfold test. generalize (length s) as n0.
  induction s as [|c s IH]; intros n0 Hs; simpl.
  - now rewrite (matchAt_demands ci n0 c0 re [] D Hs).
  - rewrite (matchAt_demands ci n0 c0 re (c :: s) D Hs).
    apply IH. intro Hin. apply Hs. now right.
Qed.

Lemma scanF_demands (ci : bool) (n0 : nat) (c0 : ascii) (re : regex) :
  demands ci c0 re = true ->
  forall fuel s, length s < fuel -> ~ In c0 s -> scanF ci n0 re fuel s = map Keep s.
Proof.
  intros D. induction fuel as [|fuel IH]; intros s Hlen Hs; [lia|].
  destruct s as [|c s].
  - simpl. now rewrite (matchAt_demands ci n0 c0 re [] D Hs).
  - rewrite scanF_miss by (now apply (matchAt_demands ci n0 c0 re)).
    simpl. f_equal. apply IH; [simpl in Hlen; lia|].
    intro Hin. apply Hs. now right.
Qed.

Lemma replaceAll_demands (ci : bool) (c0 : ascii) (re : regex)
      (f : str -> captures -> str) (s : str) :
  demands ci c0 re = true -> ~ In c0 s -> replaceAll ci re f s = s.
Proof.
  intros D Hs. unfold replaceAll, scan.
  rewrite (scanF_demands ci _ c0 re D) by (auto; lia).
  induction s as [|c s IH]; simpl; [reflexivity|].
  f_equal. apply IH. intro Hin. apply Hs. now right.
Qed.

(** A deletion pass brings in no character. *)
Lemma delete_pass_chars (ci : bool) (re : regex) (s : str) (c : ascii) :
  In c (replaceAll ci re (fun _ _ => []) s) -> In c s.
Proof.
  unfold replaceAll. rewrite <- (scan_src ci re s) at 2.
  induction (scan ci re s) as [|x segs IH]; simpl; [auto|].
  intro H. apply in_or_app. apply in_app_or in H as [H|H].
  - destruct x; [now left|contradiction].
  - right. now apply IH.
Qed.

(** A match found somewhere in a subject. *)
Lemma searchFrom_complete (ci : bool) (n0 : nat) (re : regex) (t post : str) :
  lang ci n0 re t post -> forall pre, searchFrom ci n0 re (pre ++ t ++ post) = true.
Proof.
  intros L. induction pre as [|c pre IH]; simpl.
  - assert (U : forall s, matchAt ci n0 re s <> None -> searchFrom ci n0 re s = true).
    { intros s H. destruct s; simpl; destruct (matchAt ci n0 re _); congruence. }
    apply U. now apply matchAt_complete.
  - destruct (matchAt ci n0 re (c :: pre ++ t ++ post)); [reflexivity|exact IH].
Qed.

Lemma lang_rchars (ci : bool) (n0 : nat) (s post : str) : lang ci n0 (rchars s) s post.
Proof.
  revert post. induction s as [|c s IH]; intro post; [reflexivity|].
  assert (A : atomb ci (AChr c) c = true) by apply Ascii.eqb_refl.
  destruct s as [|d s].
  - simpl. now exists c.
  - change (rchars (c :: d :: s)) with (RCat (RAtom (AChr c)) (rchars (d :: s))).
    exists [c], (d :: s). repeat split; [|apply IH]. now exists c.
Qed.

(** ** Host screening (lines 21-33) *)

(** C1: a target whose hostname is [127.0.0.1] or [0.0.0.0] is not answered
    with 403 'Forbidden host': neither name matches the pattern of line 22
    (nor [/\.local$/i]), and with no allowlist configured the handler goes on
    to fetch the target. *)
Theorem loopback_literals_pass_screening
        (resolveURL : str -> URL -> option str) (Number : str -> float)
        (fetch : str -> str + upstream) :
  isLocalHost (lit "127.0.0.1") = false /\
  isLocalHost (lit "0.0.0.0") = false /\
  handler (parseOnly (urlOfHost "127.0.0.1")) resolveURL Number fetch noEnv
          (requestFor (lit "http://127.0.0.1/"))
  = fetched resolveURL fetch (requestFor (lit "http://127.0.0.1/")) (urlOfHost "127.0.0.1") /\
  handler (parseOnly (urlOfHost "0.0.0.0")) resolveURL Number fetch noEnv
          (requestFor (lit "http://0.0.0.0/"))
  = fetched resolveURL fetch (requestFor (lit "http://0.0.0.0/")) (urlOfHost "0.0.0.0").
Proof. repeat split; reflexivity. Qed.

(** C2: a target whose hostname is the dotted quad [10.0.0.1], [172.16.0.1] or
    [192.168.1.1] is not answered with 403 'Forbidden IP range': the pattern of
    line 26 asks for backslashes and the letter d, no dotted quad matches it,
    and the octets are never looked at; with no allowlist configured the
    handler goes on to fetch the target. *)
Theorem private_quads_pass_screening
        (resolveURL : str -> URL -> option str) (Number : str -> float)
        (fetch : str -> str + upstream) :
  isPrivateIp Number (lit "10.0.0.1") = false /\
  isPrivateIp Number (lit "172.16.0.1") = false /\
  isPrivateIp Number (lit "192.168.1.1") = false /\
  handler (parseOnly (urlOfHost "10.0.0.1")) resolveURL Number fetch noEnv
          (requestFor (lit "http://10.0.0.1/"))
  = fetched resolveURL fetch (requestFor (lit "http://10.0.0.1/")) (urlOfHost "10.0.0.1").
Proof. repeat split; reflexivity. Qed.

(** ** Attribute rewriting (lines 55-81) *)

(** C3: the two documents of the specification's examples leave the HTML path
    as they entered it, whatever the resolver answers: the pattern of line 64
    asks for a backslash and the digit 2 after the value, so neither attribute
    is a match and [rewriteAttr] is never called. *)
Theorem plain_attributes_not_rewritten
        (resolveURL : str -> URL -> option str) (req : request) (target : URL) :
  rewriteHtml resolveURL req target imgAbsolute = imgAbsolute /\
  rewriteHtml resolveURL req target anchorRelative = anchorRelative.
Proof. split; reflexivity. Qed.

(** C4: the srcset of the specification's example leaves the HTML path as it
    entered it, whatever the resolver answers: the pattern of line 67 asks for
    a backslash and the digit 1 after the value. *)
Theorem plain_srcset_not_rewritten
        (resolveURL : str -> URL -> option str) (req : request) (target : URL) :
  rewriteHtml resolveURL req target imgSrcset = imgSrcset.
Proof. reflexivity. Qed.

(** ** Removal of the CSP meta tag (line 51) *)

Lemma reCspMeta_anchorFree : anchorFree reCspMeta = true.
Proof. reflexivity. Qed.

Lemma reCspMeta_ends : endsOnly true ">"%char reCspMeta = true.
Proof. vm_compute. reflexivity. Qed.




(** ** The form of a proxied URL (lines 58-59) *)

Example encodeURIComponent_example :
  encodeURIComponent (lit "https://cdn.test/x.png") = lit "https%3A%2F%2Fcdn.test%2Fx.png".
Proof. reflexivity. Qed.

Example proxied_example :
  proxied (requestFor (lit "https://a.test/dir/page")) (lit "https://a.test/other.html")
  = lit "https://proxy.test/api/proxy?url=https%3A%2F%2Fa.test%2Fother.html".
Proof. reflexivity. Qed.

(** What the pass of line 64 does where its pattern matches: the value cut
    before a backslash and the digit 2 is resolved and replaced, and both
    characters are consumed with it. *)
Example attribute_match_example :
  rewriteAttrs (fun v _ => Some (lit "https://a.test/" ++ v))
               (requestFor (lit "https://a.test/dir/page")) sampleBase
               (dq "<a href=`x.html\2>")
  = dq "<a href=`https://proxy.test/api/proxy?url=https%3A%2F%2Fa.test%2Fx.html`>".
Proof. reflexivity. Qed.

(** ** Failed resolutions (lines 55-81) *)




(** ** The two response paths (lines 44-98) *)

Lemma handler_validated
      (parseURL : str -> option URL) (resolveURL : str -> URL -> option str)
      (Number : str -> float) (fetch : str -> str + upstream) (env : environment)
      (req : request) (target : URL) :
  validate parseURL Number env req = inr target ->
  handler parseURL resolveURL Number fetch env req = fetched resolveURL fetch req target.
Proof. intro H. unfold handler, fetched. now rewrite H. Qed.

Lemma handler_rejected
      (parseURL : str -> option URL) (resolveURL : str -> URL -> option str)
      (Number : str -> float) (fetch : str -> str + upstream) (env : environment)
      (req : request) (r : response) :
  validate parseURL Number env req = inl r ->
  handler parseURL resolveURL Number fetch env req = r.
Proof. intro H. unfold handler. now rewrite H. Qed.

(** C7: for a validated target whose fetch succeeds, an upstream content-type
    that contains [text/html] gives status 200, content-type
    [text/html; charset=utf-8] and [Content-Security-Policy: frame-ancestors *],
    with the rewritten text as body; any other content-type gives the
    upstream's status, its content-type (no header when it has none) and its
    bytes, and the response is the same whatever the resolver would answer. *)
Theorem response_by_content_type
        (parseURL : str -> option URL) (resolveURL : str -> URL -> option str)
        (Number : str -> float) (fetch : str -> str + upstream) (env : environment)
        (req : request) (target : URL) (up : upstream) :
  validate parseURL Number env req = inr target ->
  fetch (href target) = inr up ->
  let r := handler parseURL resolveURL Number fetch env req in
  if includes (orEmpty (up_content_type up)) (lit "text/html")
  then status r = 200 /\
       getHeader (lit "content-type") (headers r) = Some (lit "text/html; charset=utf-8") /\
       getHeader (lit "Content-Security-Policy") (headers r) = Some (lit "frame-ancestors *") /\
       body r = rewriteHtml resolveURL req target (up_text up)
  else status r = up_status up /\
       body r = up_bytes up /\
       getHeader (lit "content-type") (headers r)
       = (if truthy (up_content_type up) then up_content_type up else None) /\
       forall resolveURL', handler parseURL resolveURL' Number fetch env req = r.
Proof.
  intros Hv Hf. cbv zeta.
  assert (E : forall rs, handler parseURL rs Number fetch env req = respond rs req target up).
  { intro rs. rewrite (handler_validated _ _ _ _ _ _ _ Hv). unfold fetched. now rewrite Hf. }
  rewrite E. unfold respond, isHtml.
  destruct (includes (orEmpty (up_content_type up)) (lit "text/html")) eqn:Hc.
  - repeat split.
  - repeat split.
    + destruct (up_content_type up) as [[|c s]|]; reflexivity.
    + intro rs. rewrite E. unfold respond, isHtml. now rewrite Hc.
Qed.

Lemma response_by_content_type_witness :
  (let r := handler (parseOnly sampleBase) (fun _ _ => None) (fun _ => 0%float)
                    (fun _ => inr pngUpstream) noEnv
                    (requestFor (lit "https://a.test/dir/page")) in
   status r = 404 /\
   body r = lit "PNG" /\
   getHeader (lit "content-type") (headers r) = Some (lit "image/png") /\
   forall resolveURL',
     handler (parseOnly sampleBase) resolveURL' (fun _ => 0%float)
             (fun _ => inr pngUpstream) noEnv
             (requestFor (lit "https://a.test/dir/page")) = r) /\
  (let r := handler (parseOnly sampleBase) (fun _ _ => None) (fun _ => 0%float)
                    (fun _ => inr htmlUpstream) noEnv
                    (requestFor (lit "https://a.test/dir/page")) in
   status r = 200 /\
   getHeader (lit "content-type") (headers r) = Some (lit "text/html; charset=utf-8") /\
   getHeader (lit "Content-Security-Policy") (headers r) = Some (lit "frame-ancestors *") /\
   body r = rewriteHtml (fun _ _ => None) (requestFor (lit "https://a.test/dir/page"))
                        sampleBase imgAbsolute).
Proof.
  split.
  - apply (response_by_content_type
             (parseOnly sampleBase) (fun _ _ => None) (fun _ => 0%float)
             (fun _ => inr pngUpstream) noEnv
             (requestFor (lit "https://a.test/dir/page")) sampleBase pngUpstream);
      reflexivity.
  - apply (response_by_content_type
             (parseOnly sampleBase) (fun _ _ => None) (fun _ => 0%float)
             (fun _ => inr htmlUpstream) noEnv
             (requestFor (lit "https://a.test/dir/page")) sampleBase htmlUpstream);
      reflexivity.
Defined.

(** ** The validation gates (lines 5-40) *)

Lemma allowed_spec (env : environment) (host : str) :
  allowed env host = true <->
  exists a, In a (allowlist env) /\ (host = a \/ exists sub, host = sub ++ "."%char :: a).
Proof.
  unfold allowed. rewrite existsb_exists. split.
  - intros (a & Hin & H). exists a. split; auto.
    apply orb_true_iff in H as [H|H].
    + left. symmetry. now apply str_eqb_eq.
    + right. now apply endsWith_spec.
  - intros (a & Hin & H). exists a. split; auto.
    apply orb_true_iff. destruct H as [->|H].
    + left. apply str_eqb_refl.
    + right. now apply endsWith_spec.
Qed.

(** What [validate] returns, gate by gate. *)
Lemma validate_first_failing
      (parseURL : str -> option URL) (Number : str -> float) (env : environment)
      (req : request) :
  validate parseURL Number env req
  = match firstFailing parseURL Number env req with
    | Some g => inl (rejection g)
    | None => match targetOf parseURL req with
              | Some target => inr target
              | None => inl invalidUrl
              end
    end.
Proof.
  unfold validate, firstFailing, gateOrder, find, gateFails, onTarget, targetOf,
    targetUrlOf, returnIf, rejection.
  destruct (truthy (jsOr (query_url req) (header_target req))); cbn [negb];
    [|reflexivity].
  assert (K : truthy (Some (orEmpty (API_KEY env))) = truthy (API_KEY env)).
  { destruct (API_KEY env) as [[|c s]|]; reflexivity. }
  rewrite K.
  destruct (truthy (API_KEY env)
            && negb (str_eqb (orEmpty (header_api_key req)) (orEmpty (API_KEY env))));
    [reflexivity|].
  destruct (parseURL (orEmpty (jsOr (query_url req) (header_target req)))) as [t|];
    [|reflexivity].
  cbn [existsb]. rewrite orb_false_r.
  destruct (negb (str_eqb (protocol t) (lit "http:") || str_eqb (protocol t) (lit "https:")));
    [reflexivity|].
  destruct (isLocalHost (hostname t)); [reflexivity|].
  destruct (isPrivateIp Number (hostname t)); [reflexivity|].
  destruct (allowlist env) as [|a l]; [reflexivity|].
  cbn [length Nat.ltb Nat.leb negb andb].
  destruct (negb (allowed env (hostname t))); reflexivity.
Qed.

Section GateOrder.
Variable f : gate -> bool.

Ltac earlier H G :=
  let E := fresh "E" in
  pose proof (H G) as E; cbn [gateIndex] in E;
  first [ specialize (E ltac:(lia)); rewrite E | clear E ].

Lemma find_gate_intro (g : gate) :
  f g = true ->
  (forall g', gateIndex g' < gateIndex g -> f g' = false) ->
  find f gateOrder = Some g.
Proof.
  intros Hg Hlt. unfold gateOrder.
  destruct g; cbn [find];
    earlier Hlt GPresence; earlier Hlt GApiKey; earlier Hlt GParse;
    earlier Hlt GScheme; earlier Hlt GHost; earlier Hlt GIpRange;
    rewrite Hg; reflexivity.
Qed.

Lemma find_gate_some (g : gate) :
  find f gateOrder = Some g ->
  f g = true /\ forall g', gateIndex g' < gateIndex g -> f g' = false.
Proof.
  unfold gateOrder. cbn [find].
  repeat (match goal with
          | |- context [if f ?G then _ else _] => destruct (f G) eqn:?
          end;
          [ intro E; injection E as <-; split;
            [ assumption | intros [] Hlt; cbn [gateIndex] in Hlt; try lia; assumption ]
          | ]).
  discriminate.
Qed.

Lemma find_gate_none :
  find f gateOrder = None -> forall g, f g = false.
Proof.
  unfold gateOrder. cbn [find].
  repeat (match goal with
          | |- context [if f ?G then _ else _] => destruct (f G) eqn:?
          end; [ discriminate | ]).
  intros _ []; assumption.
Qed.
End GateOrder.

(** C6: the gates are applied in the fixed order presence, API key, parse,
    scheme, host screening (local names, then private ranges), allowlist.  When
    some gate fails, the earliest one [g] that does decides the outcome: every
    gate before it passes, the handler answers with the reply of [g] alone, and
    it answers so whatever the later gates would find (any platform and
    environment that agree on the gates up to [g] give the same reply), without
    fetching.  When no gate fails the target is parsed and handed on. *)
Theorem first_failing_gate_decides
        (parseURL : str -> option URL) (resolveURL : str -> URL -> option str)
        (Number : str -> float) (fetch : str -> str + upstream) (env : environment)
        (req : request) :
  match firstFailing parseURL Number env req with
  | Some g =>
      gateFails parseURL Number env req g = true /\
      (forall g', gateIndex g' < gateIndex g ->
                  gateFails parseURL Number env req g' = false) /\
      validate parseURL Number env req = inl (rejection g) /\
      handler parseURL resolveURL Number fetch env req = rejection g /\
      (forall parseURL' resolveURL' Number' fetch' env',
          (forall g', gateIndex g' <= gateIndex g ->
                      gateFails parseURL' Number' env' req g'
                      = gateFails parseURL Number env req g') ->
          handler parseURL' resolveURL' Number' fetch' env' req = rejection g)
  | None =>
      (forall g, gateFails parseURL Number env req g = false) /\
      exists target,
        targetOf parseURL req = Some target /\
        validate parseURL Number env req = inr target /\
        handler parseURL resolveURL Number fetch env req
        = fetched resolveURL fetch req target
  end.
Proof.
  pose proof (validate_first_failing parseURL Number env req) as V.
  destruct (firstFailing parseURL Number env req) as [g|] eqn:F.
  - destruct (find_gate_some _ _ F) as [Hg Hlt].
    repeat split; auto.
    + now apply handler_rejected.
    + intros parseURL' resolveURL' Number' fetch' env' A.
      apply handler_rejected. rewrite validate_first_failing.
      unfold firstFailing. rewrite (find_gate_intro _ g); [reflexivity| |].
      * rewrite A; [assumption|lia].
      * intros g' Hg'. rewrite A; [|lia]. now apply Hlt.
  - pose proof (find_gate_none _ F) as N. split; [exact N|].
    pose proof (N GParse) as P. cbn [gateFails] in P.
    destruct (targetOf parseURL req) as [target|]; [|discriminate].
    exists target. repeat split; auto. now apply handler_validated.
Qed.

(** C5: for a request that passes the other gates (it is validated when no
    allowlist is set), an empty allowlist lets it pass; a non-empty one lets
    it pass when the hostname equals an entry or ends with a dot followed by an
    entry, and otherwise rejects it with 403 'Host not allowed by allowlist'. *)
Theorem allowlist_gate
        (parseURL : str -> option URL) (Number : str -> float) (env : environment)
        (req : request) (target : URL) :
  validate parseURL Number (mkEnv (API_KEY env) None) req = inr target ->
  let host := hostname target in
  let listed :=
    exists a, In a (allowlist env) /\ (host = a \/ exists sub, host = sub ++ "."%char :: a) in
  (allowlist env = [] -> validate parseURL Number env req = inr target) /\
  (allowlist env <> [] -> listed -> validate parseURL Number env req = inr target) /\
  (allowlist env <> [] -> ~ listed -> validate parseURL Number env req = inl notAllowlisted).
Proof.
  intros H. cbv zeta.
  assert (V : validate parseURL Number env req
              = if (0 <? length (allowlist env)) && negb (allowed env (hostname target))
                then inl notAllowlisted else inr target).
  { revert H. unfold validate, returnIf. cbn [API_KEY].
    destruct (negb (truthy (jsOr (query_url req) (header_target req)))); [discriminate|].
    destruct (truthy (Some (orEmpty (API_KEY env)))
              && negb (str_eqb (orEmpty (header_api_key req)) (orEmpty (API_KEY env))));
      [discriminate|].
    destruct (parseURL (orEmpty (jsOr (query_url req) (header_target req)))) as [t|];
      [|discriminate].
    destruct (negb (existsb (str_eqb (protocol t)) [lit "http:"; lit "https:"]));
      [discriminate|].
    destruct (isLocalHost (hostname t)); [discriminate|].
    destruct (isPrivateIp Number (hostname t)); [discriminate|].
    change (allowlist {| API_KEY := API_KEY env; ALLOWLIST := None |}) with (@nil str).
    cbn [length Nat.ltb Nat.leb andb]. intro E. injection E as ->. reflexivity. }
  rewrite V. repeat split.
  - intros ->. reflexivity.
  - intros _ L. apply allowed_spec in L. rewrite L. now rewrite andb_false_r.
  - intros Hne L. destruct (allowlist env) as [|a l] eqn:El; [contradiction|].
    cbn [length Nat.ltb Nat.leb andb].
    destruct (allowed env (hostname target)) eqn:A; [|reflexivity].
    exfalso. apply L. apply allowed_spec in A. now rewrite El in A.
Qed.

Lemma allowlist_gate_witness :
  validate (parseOnly (urlOfHost "example.com")) (fun _ => 0%float) exampleAllowlist
           (requestFor (lit "http://example.com/")) = inr (urlOfHost "example.com") /\
  validate (parseOnly (urlOfHost "api.example.com")) (fun _ => 0%float) exampleAllowlist
           (requestFor (lit "http://api.example.com/")) = inr (urlOfHost "api.example.com") /\
  validate (parseOnly (urlOfHost "evil.com")) (fun _ => 0%float) exampleAllowlist
           (requestFor (lit "http://evil.com/")) = inl notAllowlisted.
Proof.
  refine (conj _ (conj _ _)).
  - apply (allowlist_gate (parseOnly (urlOfHost "example.com")) (fun _ => 0%float)
                          exampleAllowlist (requestFor (lit "http://example.com/"))
                          (urlOfHost "example.com") eq_refl).
    + discriminate.
    + exists (lit "example.com"). split; [now left|now left].
  - apply (allowlist_gate (parseOnly (urlOfHost "api.example.com")) (fun _ => 0%float)
                          exampleAllowlist (requestFor (lit "http://api.example.com/"))
                          (urlOfHost "api.example.com") eq_refl).
    + discriminate.
    + exists (lit "example.com"). split; [now left|].
      right. exists (lit "api"). reflexivity.
  - apply (allowlist_gate (parseOnly (urlOfHost "evil.com")) (fun _ => 0%float)
                          exampleAllowlist (requestFor (lit "http://evil.com/"))
                          (urlOfHost "evil.com") eq_refl).
    + discriminate.
    + intros (a & [<-|[]] & [E|E]).
      * discriminate E.
      * apply endsWith_spec in E. discriminate E.
Defined.

(** ** The API key (lines 9-13) *)

(** C10: for a request that names a target, when a non-empty key is
    configured the request without the [x-api-key] header is answered with
    401 'Unauthorized - invalid API key', exactly as one that sends any value
    other than the key; when no key (or an empty one) is configured the header
    has no effect on the handler and validation never answers 401. *)
Theorem api_key_gate
        (parseURL : str -> option URL) (resolveURL : str -> URL -> option str)
        (Number : str -> float) (fetch : str -> str + upstream) (env : environment)
        (req : request) :
  truthy (targetUrlOf req) = true ->
  if truthy (API_KEY env)
  then handler parseURL resolveURL Number fetch env (withApiKey None req) = unauthorized /\
       forall wrong, Some wrong <> API_KEY env ->
         handler parseURL resolveURL Number fetch env (withApiKey (Some wrong) req)
         = unauthorized
  else forall h,
         handler parseURL resolveURL Number fetch env (withApiKey h req)
         = handler parseURL resolveURL Number fetch env req /\
         validate parseURL Number env (withApiKey h req) <> inl unauthorized.
Proof.
  intro P. destruct (truthy (API_KEY env)) eqn:K.
  - destruct (API_KEY env) as [[|c k]|] eqn:EK; try discriminate K.
    assert (G : forall h, str_eqb (orEmpty h) (c :: k) = false ->
                          handler parseURL resolveURL Number fetch env (withApiKey h req)
                          = unauthorized).
    { intros h W. apply handler_rejected. unfold validate, returnIf.
      cbn [withApiKey query_url header_target header_api_key].
      fold (targetUrlOf req). rewrite P, EK. cbn [negb orEmpty jsOr truthy andb].
      cbn [orEmpty jsOr truthy] in W. now rewrite W. }
    split.
    + now apply G.
    + intros wrong W. apply G.
      destruct (str_eqb (orEmpty (Some wrong)) (c :: k)) eqn:E; [|reflexivity].
      apply str_eqb_eq in E. exfalso. apply W.
      destruct wrong; [discriminate E|]. cbn in E. now rewrite E.
  - intro h. split.
    + unfold handler, validate, returnIf.
      cbn [withApiKey query_url header_target header_api_key].
      replace (truthy (Some (orEmpty (API_KEY env)))) with false
        by (destruct (API_KEY env) as [[|c k]|]; [reflexivity|discriminate K|reflexivity]).
      reflexivity.
    + rewrite validate_first_failing.
      destruct (firstFailing parseURL Number env (withApiKey h req)) as [g|] eqn:F.
      * apply find_gate_some in F as [Hg _]. destruct g; try discriminate.
        cbn [gateFails] in Hg. rewrite K in Hg. discriminate Hg.
      * destruct (targetOf parseURL (withApiKey h req)); discriminate.
Qed.

Lemma api_key_gate_witness :
  (handler (parseOnly sampleBase) (fun _ _ => None) (fun _ => 0%float)
           (fun _ => inr pngUpstream) secretEnv
           (withApiKey None (requestFor (lit "https://a.test/dir/page"))) = unauthorized /\
   forall wrong, Some wrong <> API_KEY secretEnv ->
     handler (parseOnly sampleBase) (fun _ _ => None) (fun _ => 0%float)
             (fun _ => inr pngUpstream) secretEnv
             (withApiKey (Some wrong) (requestFor (lit "https://a.test/dir/page")))
     = unauthorized) /\
  (forall h,
     handler (parseOnly sampleBase) (fun _ _ => None) (fun _ => 0%float)
             (fun _ => inr pngUpstream) noEnv
             (withApiKey h (requestFor (lit "https://a.test/dir/page")))
     = handler (parseOnly sampleBase) (fun _ _ => None) (fun _ => 0%float)
               (fun _ => inr pngUpstream) noEnv
               (requestFor (lit "https://a.test/dir/page")) /\
     validate (parseOnly sampleBase) (fun _ => 0%float) noEnv
              (withApiKey h (requestFor (lit "https://a.test/dir/page")))
     <> inl unauthorized).
Proof.
  split.
  - apply (api_key_gate (parseOnly sampleBase) (fun _ _ => None) (fun _ => 0%float)
                        (fun _ => inr pngUpstream) secretEnv
                        (requestFor (lit "https://a.test/dir/page")) eq_refl).
  - apply (api_key_gate (parseOnly sampleBase) (fun _ _ => None) (fun _ => 0%float)
                        (fun _ => inr pngUpstream) noEnv
                        (requestFor (lit "https://a.test/dir/page")) eq_refl).
Defined.

(** ** Further properties of the screening and rewriting patterns *)

Lemma reAttr_demands : demands true BSL reAttr = true.
Proof. vm_compute. reflexivity. Qed.

Lemma reSrcset_demands : demands true BSL reSrcset = true.
Proof. vm_compute. reflexivity. Qed.

Lemma reDottedQuad_demands : demands false BSL reDottedQuad = true.
Proof. vm_compute. reflexivity. Qed.

(** X1: a document without a backslash character goes through the
    src/href/action pass and the srcset pass unchanged, whatever its
    attributes are and whatever the resolver answers: the HTML path only
    removes CSP meta tags from it. *)
Theorem backslash_free_document_untouched
        (resolveURL : str -> URL -> option str) (req : request) (target : URL) (html : str) :
  hasChar BSL html = false ->
  rewriteAttrs resolveURL req target html = html /\
  rewriteSrcsets resolveURL req target html = html /\
  rewriteHtml resolveURL req target html = removeCsp html.
Proof.
  intro H. apply hasChar_In in H.
  assert (A : forall s, ~ In BSL s -> rewriteAttrs resolveURL req target s = s).
  { intros s Hs. now apply (replaceAll_demands true BSL reAttr _ s reAttr_demands). }
  assert (S : forall s, ~ In BSL s -> rewriteSrcsets resolveURL req target s = s).
  { intros s Hs. now apply (replaceAll_demands true BSL reSrcset _ s reSrcset_demands). }
  repeat split; auto.
  assert (C : ~ In BSL (removeCsp html)).
  { intro Hin. apply H. exact (delete_pass_chars _ _ _ _ Hin). }
  unfold rewriteHtml. rewrite (A _ C). now apply S.
Qed.

Lemma backslash_free_document_untouched_witness :
  rewriteAttrs (fun _ _ => None) (requestFor (lit "https://a.test/")) sampleBase imgSrcset
  = imgSrcset /\
  rewriteSrcsets (fun _ _ => None) (requestFor (lit "https://a.test/")) sampleBase imgSrcset
  = imgSrcset /\
  rewriteHtml (fun _ _ => None) (requestFor (lit "https://a.test/")) sampleBase imgSrcset
  = removeCsp imgSrcset.
Proof.
  apply (backslash_free_document_untouched
           (fun _ _ => None) (requestFor (lit "https://a.test/")) sampleBase imgSrcset).
  reflexivity.
Defined.

(** X2: the hostname [localhost] and every hostname that ends in [.local]
    are forbidden local hosts, and a request for such a target is answered
    with 403 'Forbidden host'. *)
Theorem local_names_forbidden
        (resolveURL : str -> URL -> option str) (Number : str -> float)
        (fetch : str -> str + upstream) :
  isLocalHost (lit "localhost") = true /\
  (forall pre, isLocalHost (pre ++ lit ".local") = true) /\
  handler (parseOnly (urlOfHost "localhost")) resolveURL Number fetch noEnv
          (requestFor (lit "http://localhost/")) = forbiddenHost /\
  handler (parseOnly (urlOfHost "foo.local")) resolveURL Number fetch noEnv
          (requestFor (lit "http://foo.local/")) = forbiddenHost.
Proof.
  repeat split.
  intro pre. unfold isLocalHost. apply orb_true_iff. right.
  unfold test. generalize (length (pre ++ lit ".local")) as n0. intro n0.
  rewrite <- (app_nil_r (lit ".local")). apply searchFrom_complete.
  exists (lit ".local"), []. split; [reflexivity|]. split.
  - apply lang_rchars.
  - now split.
Qed.

(** X3: the private-range test answers false on every hostname without a
    backslash character, so no dotted quad is ever refused as a private
    address. *)
Theorem private_range_gate_needs_backslash (Number : str -> float) (host : str) :
  hasChar BSL host = false -> isPrivateIp Number host = false.
Proof.
  intro H. apply hasChar_In in H. unfold isPrivateIp.
  now rewrite (test_demands false BSL reDottedQuad host reDottedQuad_demands H).
Qed.

Lemma private_range_gate_needs_backslash_witness :
  isPrivateIp (fun _ => 10%float) (lit "10.0.0.1") = false.
Proof.
  apply (private_range_gate_needs_backslash (fun _ => 10%float) (lit "10.0.0.1")).
  reflexivity.
Defined.

(** ** What passes validation, and what is fetched (lines 5-43, 99-102) *)

(** X4: a target that passes validation is the parsed form of the URL the
    request names, its protocol is [http:] or [https:], its hostname is refused
    by neither host test, and it is allowed by the allowlist when one is set. *)
Theorem validated_target_properties
        (parseURL : str -> option URL) (Number : str -> float) (env : environment)
        (req : request) (target : URL) :
  validate parseURL Number env req = inr target ->
  truthy (targetUrlOf req) = true /\
  parseURL (orEmpty (targetUrlOf req)) = Some target /\
  (protocol target = lit "http:" \/ protocol target = lit "https:") /\
  isLocalHost (hostname target) = false /\
  isPrivateIp Number (hostname target) = false /\
  (allowlist env = [] \/ allowed env (hostname target) = true).
Proof.
  intro V. rewrite validate_first_failing in V.
  destruct (firstFailing parseURL Number env req) as [g|] eqn:F; [discriminate V|].
  pose proof (find_gate_none _ F) as N.
  pose proof (N GPresence) as N0. pose proof (N GScheme) as N3.
  pose proof (N GHost) as N4. pose proof (N GIpRange) as N5.
  pose proof (N GAllowlist) as N6.
  cbn [gateFails] in N0, N3, N4, N5, N6. unfold onTarget in N3, N4, N5, N6.
  unfold targetOf in *.
  destruct (parseURL (orEmpty (targetUrlOf req))) as [t|]; [|discriminate V].
  injection V as ->.
  repeat split; auto.
  - now apply negb_false_iff in N0.
  - apply negb_false_iff, orb_true_iff in N3. destruct N3 as [E|E];
      apply str_eqb_eq in E; auto.
  - destruct (allowlist env); [now left|right].
    cbn [negb andb] in N6. now apply negb_false_iff in N6.
Qed.

Lemma validated_target_properties_witness :
  truthy (targetUrlOf (requestFor (lit "http://api.example.com/"))) = true /\
  parseOnly (urlOfHost "api.example.com")
            (orEmpty (targetUrlOf (requestFor (lit "http://api.example.com/"))))
  = Some (urlOfHost "api.example.com") /\
  (protocol (urlOfHost "api.example.com") = lit "http:" \/
   protocol (urlOfHost "api.example.com") = lit "https:") /\
  isLocalHost (hostname (urlOfHost "api.example.com")) = false /\
  isPrivateIp (fun _ => 0%float) (hostname (urlOfHost "api.example.com")) = false /\
  (allowlist exampleAllowlist = [] \/
   allowed exampleAllowlist (hostname (urlOfHost "api.example.com")) = true).
Proof.
  apply (validated_target_properties
           (parseOnly (urlOfHost "api.example.com")) (fun _ => 0%float) exampleAllowlist
           (requestFor (lit "http://api.example.com/")) (urlOfHost "api.example.com")).
  reflexivity.
Defined.

(** X5: the handler consults the upstream at one place at most, the address of
    the target that passed validation: two fetchers that agree there give the
    same answer, whatever they would return anywhere else. *)
Theorem fetch_consulted_for_validated_target_only
        (parseURL : str -> option URL) (resolveURL : str -> URL -> option str)
        (Number : str -> float) (env : environment) (req : request)
        (fetch fetch' : str -> str + upstream) :
  (forall target, validate parseURL Number env req = inr target ->
                  fetch (href target) = fetch' (href target)) ->
  handler parseURL resolveURL Number fetch env req
  = handler parseURL resolveURL Number fetch' env req.
Proof.
  intro H. unfold handler.
  destruct (validate parseURL Number env req) as [r|target]; [reflexivity|].
  now rewrite (H target eq_refl).
Qed.

Lemma fetch_consulted_for_validated_target_only_witness :
  handler (parseOnly sampleBase) (fun _ _ => None) (fun _ => 0%float)
          (fun u => if str_eqb u (href sampleBase) then inr pngUpstream else inl (lit "down"))
          noEnv (requestFor (lit "https://a.test/dir/page"))
  = handler (parseOnly sampleBase) (fun _ _ => None) (fun _ => 0%float)
            (fun _ => inr pngUpstream)
            noEnv (requestFor (lit "https://a.test/dir/page")).
Proof.
  apply (fetch_consulted_for_validated_target_only
           (parseOnly sampleBase) (fun _ _ => None) (fun _ => 0%float) noEnv
           (requestFor (lit "https://a.test/dir/page"))).
  intros target V. injection V as <-. reflexivity.
Defined.


(** ** Where the target comes from (line 5) *)

(** X7: a non-empty [url] query parameter is the target and the header
    [x-target-url] is then ignored; without it (absent or empty) the header
    stands in for it; with neither the answer is 400
    'Missing url query parameter' (the name in double quotes). *)
Theorem target_source_precedence
        (parseURL : str -> option URL) (resolveURL : str -> URL -> option str)
        (Number : str -> float) (fetch : str -> str + upstream) (env : environment)
        (req : request) :
  if truthy (query_url req)
  then forall h, handler parseURL resolveURL Number fetch env (withTargetHeader h req)
                 = handler parseURL resolveURL Number fetch env req
  else if truthy (header_target req)
       then handler parseURL resolveURL Number fetch env req
            = handler parseURL resolveURL Number fetch env
                      (withQuery (header_target req) (withTargetHeader None req))
       else handler parseURL resolveURL Number fetch env req = missingUrl.
Proof.
  destruct req as [q h k pr ho]. cbn [query_url header_target].
  unfold handler, validate, respond, rewriteHtml, rewriteSrcsets, rewriteAttrs,
    rewriteSrcset, rewriteAttr, rewriteCandidate, proxied, proxyBase, withQuery,
    withTargetHeader.
  cbn [query_url header_target header_api_key req_protocol header_host].
  unfold jsOr.
  destruct (truthy q) eqn:Q.
  - intro h'. reflexivity.
  - cbv beta iota. destruct (truthy h) eqn:H; cbv beta iota; rewrite ?H; reflexivity.
Qed.

(** ** The allowlist as it is read (line 36) *)

Lemma trimStart_head (s : str) (c : ascii) (r : str) :
  trimStart s = c :: r -> isSpace c = false.
Proof.
  induction s as [|x s IH]; simpl; [discriminate|].
  destruct (isSpace x) eqn:E; [exact IH|]. intro H. injection H as <- _. exact E.
Qed.

Lemma trimStart_suffix (s : str) : exists p, s = p ++ trimStart s.
Proof.
  induction s as [|x s (p & IH)]; simpl.
  - now exists [].
  - destruct (isSpace x).
    + exists (x :: p). simpl. now f_equal.
    + now exists [].
Qed.

Lemma trimStart_blank (s : str) :
  (forall c, In c s -> isSpace c = true) -> trimStart s = [].
Proof.
  induction s as [|x s IH]; simpl; intro H; [reflexivity|].
  rewrite (H x (or_introl eq_refl)). apply IH. intros c Hc. apply H. now right.
Qed.

Lemma trim_incl (s : str) (c : ascii) : In c (trim s) -> In c s.
Proof.
  unfold trim. intro H. apply in_rev in H.
  destruct (trimStart_suffix (rev (trimStart s))) as (p & E).
  assert (H1 : In c (rev (trimStart s))) by (rewrite E; apply in_or_app; now right).
  apply in_rev in H1.
  destruct (trimStart_suffix s) as (p' & E'). rewrite E'. apply in_or_app. now right.
Qed.

Lemma trim_head (s : str) (c : ascii) (r : str) : trim s = c :: r -> isSpace c = false.
Proof.
  unfold trim. intro H.
  destruct (trimStart_suffix (rev (trimStart s))) as (p & E).
  apply (f_equal (@rev ascii)) in H. rewrite rev_involutive in H. simpl in H.
  rewrite H in E. apply (f_equal (@rev ascii)) in E.
  rewrite rev_involutive, app_assoc, rev_unit in E.
  exact (trimStart_head _ _ _ E).
Qed.

Lemma trim_last (s p : str) (c : ascii) : trim s = p ++ [c] -> isSpace c = false.
Proof.
  unfold trim. intro H.
  apply (f_equal (@rev ascii)) in H. rewrite rev_involutive, rev_unit in H.
  exact (trimStart_head _ _ _ H).
Qed.

Lemma splitOn_chars (sep : ascii) (s p : str) (c : ascii) :
  In p (splitOn sep s) -> In c p -> In c s /\ c <> sep.
Proof.
  revert p. induction s as [|x s IH]; simpl; intros p Hp Hc.
  - destruct Hp as [<-|[]]. contradiction.
  - destruct (Ascii.eqb x sep) eqn:E.
    + destruct Hp as [<-|Hp]; [contradiction|].
      destruct (IH p Hp Hc). auto.
    + apply Ascii.eqb_neq in E.
      destruct (splitOn sep s) as [|p0 ps] eqn:S.
      * destruct Hp as [<-|[]]. destruct Hc as [<-|[]]. auto.
      * destruct Hp as [<-|Hp].
        -- destruct Hc as [<-|Hc]; [auto|].
           destruct (IH p0 (or_introl eq_refl) Hc). auto.
        -- destruct (IH p (or_intror Hp) Hc). auto.
Qed.

Lemma orEmpty_Some (s : str) : orEmpty (Some s) = s.
Proof. now destruct s. Qed.

(** X8: every entry of the allowlist the handler compares hostnames with is
    non-empty, neither begins nor ends with white space, and holds no comma:
    the configured text is cut at commas, each piece trimmed, and the empty
    pieces dropped. *)
Theorem allowlist_entries_trimmed (env : environment) (a : str) :
  In a (allowlist env) ->
  a <> [] /\
  (forall c r, a = c :: r -> isSpace c = false) /\
  (forall p c, a = p ++ [c] -> isSpace c = false) /\
  ~ In ","%char a.
Proof.
  unfold allowlist. intro H. apply filter_In in H as [H T].
  apply in_map_iff in H as (raw & <- & Hraw).
  repeat split.
  - intro E. rewrite E in T. discriminate T.
  - intros c r E. exact (trim_head _ _ _ E).
  - intros p c E. exact (trim_last _ _ _ E).
  - intro Hin. apply trim_incl in Hin.
    destruct (splitOn_chars _ _ _ _ Hraw Hin) as [_ Hne]. now apply Hne.
Qed.

Lemma allowlist_entries_trimmed_witness :
  lit "example.com" <> [] /\
  (forall c r, lit "example.com" = c :: r -> isSpace c = false) /\
  (forall p c, lit "example.com" = p ++ [c] -> isSpace c = false) /\
  ~ In ","%char (lit "example.com").
Proof.
  apply (allowlist_entries_trimmed (mkEnv None (Some (lit " example.com , ,b.org")))).
  simpl. now left.
Defined.

(** X9: an allowlist setting made of commas and white space only enforces
    nothing: the handler answers as if no allowlist were configured. *)
Theorem blank_allowlist_enforces_nothing
        (parseURL : str -> option URL) (resolveURL : str -> URL -> option str)
        (Number : str -> float) (fetch : str -> str + upstream)
        (key : jsval) (raw : str) (req : request) :
  (forall c, In c raw -> c = ","%char \/ isSpace c = true) ->
  allowlist (mkEnv key (Some raw)) = [] /\
  handler parseURL resolveURL Number fetch (mkEnv key (Some raw)) req
  = handler parseURL resolveURL Number fetch (mkEnv key None) req.
Proof.
  intro H.
  assert (A : allowlist (mkEnv key (Some raw)) = []).
  { unfold allowlist. cbn [ALLOWLIST]. rewrite orEmpty_Some.
    assert (B : forall p, In p (splitOn ","%char raw) -> trim p = []).
    { intros p Hp. unfold trim. rewrite (trimStart_blank p); [reflexivity|].
      intros c Hc. destruct (splitOn_chars _ _ _ _ Hp Hc) as [Hin Hne].
      destruct (H c Hin) as [E|E]; [contradiction|exact E]. }
    induction (splitOn ","%char raw) as [|p ps IH]; [reflexivity|].
    simpl. rewrite (B p (or_introl eq_refl)). simpl.
    apply IH. intros p' Hp'. apply B. now right. }
  split; [exact A|].
  unfold handler, validate, allowed. rewrite A. reflexivity.
Qed.

Lemma blank_allowlist_enforces_nothing_witness :
  allowlist (mkEnv None (Some (lit " , ,"))) = [] /\
  handler (parseOnly (urlOfHost "evil.com")) (fun _ _ => None) (fun _ => 0%float)
          (fun _ => inr pngUpstream) (mkEnv None (Some (lit " , ,")))
          (requestFor (lit "http://evil.com/"))
  = handler (parseOnly (urlOfHost "evil.com")) (fun _ _ => None) (fun _ => 0%float)
            (fun _ => inr pngUpstream) (mkEnv None None)
            (requestFor (lit "http://evil.com/")).
Proof.
  apply (blank_allowlist_enforces_nothing
           (parseOnly (urlOfHost "evil.com")) (fun _ _ => None) (fun _ => 0%float)
           (fun _ => inr pngUpstream) None (lit " , ,") (requestFor (lit "http://evil.com/"))).
  intros c Hc. simpl in Hc.
  repeat (destruct Hc as [<-|Hc]; [first [now left | now right]|]). contradiction.
Defined.

(** ** One srcset candidate (lines 70-75) *)

Lemma matchAt_spaces (n0 : nat) (c : ascii) (s : str) :
  if isSpace c
  then exists n cs, matchAt false n0 reSpaces (c :: s) = Some (S n, cs)
  else matchAt false n0 reSpaces (c :: s) = None.
Proof.
  destruct (isSpace c) eqn:E.
  - destruct (matchAt false n0 reSpaces (c :: s)) as [[n cs]|] eqn:M.
    + apply matchAt_sound in M as (t & post & _ & -> & [Hne _]).
      destruct t; [contradiction|]. now eexists _, _.
    + exfalso. apply (matchAt_complete false n0 reSpaces [c] s); [|exact M].
      split; [discriminate|]. now constructor.
  - unfold matchAt, reSpaces. simpl. now rewrite E.
Qed.

Lemma splitHeadFrom_spaces (n0 : nat) (s : str) :
  forall first, exists rest,
    s = splitHeadFrom reSpaces n0 first s ++ rest /\
    Forall (fun c => isSpace c = false) (splitHeadFrom reSpaces n0 first s) /\
    match rest with [] => True | c :: _ => isSpace c = true end.
Proof.
  induction s as [|c s IH]; intro first.
  - exists []. now repeat split.
  - pose proof (matchAt_spaces n0 c s) as M. simpl.
    destruct (isSpace c) eqn:E.
    + destruct M as (n & cs & ->). exists (c :: s). now repeat split.
    + rewrite M. destruct (IH false) as (rest & E1 & F & R).
      exists rest. repeat split; auto.
      simpl. now f_equal.
Qed.

(** X10: a srcset candidate is cut at its first white-space character: the
    URL token is the part before it (the whole candidate when there is none)
    and holds no white space, the descriptor is everything from that character
    on, and a candidate whose token resolves becomes the proxied URL followed by
    that descriptor, unchanged. *)
Theorem srcset_candidate_split
        (resolveURL : str -> URL -> option str) (req : request) (target : URL) (part : str) :
  let urlPart := splitHead reSpaces part in
  let rest := skipn (length urlPart) part in
  part = urlPart ++ rest /\
  Forall (fun c => isSpace c = false) urlPart /\
  match rest with [] => True | c :: _ => isSpace c = true end /\
  rewriteCandidate resolveURL req target part
  = match resolveURL urlPart target with
    | Some abs => Some (proxied req abs ++ rest)
    | None => None
    end.
Proof.
  cbv zeta. unfold splitHead.
  destruct (splitHeadFrom_spaces (length part) part true) as (rest & E & F & R).
  set (u := splitHeadFrom reSpaces (length part) true part) in *.
  assert (S : skipn (length u) part = rest).
  { transitivity (skipn (length u) (u ++ rest)); [f_equal; exact E|].
    rewrite skipn_app, skipn_all, Nat.sub_diag. reflexivity. }
  rewrite S. repeat split; auto.
  unfold rewriteCandidate, splitHead. fold u. now rewrite S.
Qed.

(** ** More on the removal of CSP meta tags (line 51) *)

Lemma scanF_no_match (ci : bool) (n0 : nat) (re : regex) :
  forall fuel s, length s < fuel -> searchFrom ci n0 re s = false ->
                 scanF ci n0 re fuel s = map Keep s.
Proof.
  induction fuel as [|fuel IH]; intros s Hlen H; [lia|].
  destruct s as [|c s]; simpl in H |- *.
  - destruct (matchAt ci n0 re []); [discriminate|reflexivity].
  - destruct (matchAt ci n0 re (c :: s)); [discriminate|].
    f_equal. apply IH; [simpl in Hlen; lia|exact H].
Qed.

Lemma concat_map_Keep (f : str -> captures -> str) (s : str) :
  concat (map (segOut f) (map Keep s)) = s.
Proof. induction s as [|c s IH]; simpl; [reflexivity|now f_equal]. Qed.

Lemma replaceAll_no_match (ci : bool) (re : regex) (f : str -> captures -> str) (s : str) :
  test ci re s = false -> replaceAll ci re f s = s.
Proof.
  intro H. unfold replaceAll, scan.
  rewrite scanF_no_match; [apply concat_map_Keep|lia|exact H].
Qed.

Section Deletion.
Variable ci : bool.
Variable re : regex.
Variable c0 : ascii.
Hypothesis re_free : anchorFree re = true.
Hypothesis re_ends : endsOnly ci c0 re = true.

Lemma match_not_empty (n0 : nat) (s : str) (cs : captures) :
  matchAt ci n0 re s <> Some (0, cs).
Proof.
  intro E. apply matchAt_sound in E as (t & post & _ & Hn & L).
  destruct (endsOnly_sound _ _ _ _ re_ends _ _ L) as (u & -> & _).
  rewrite length_app in Hn. simpl in Hn. lia.
Qed.

Lemma deleted_length (n0 : nat) :
  forall fuel s, length s < fuel ->
    length (deleted ci re n0 fuel s) <= length s /\
    (searchFrom ci n0 re s = true -> length (deleted ci re n0 fuel s) < length s).
Proof.
  unfold deleted.
  induction fuel as [|fuel IH]; intros s Hlen; [lia|].
  destruct s as [|c s].
  - simpl. destruct (matchAt ci n0 re []) as [[[|n] cs]|] eqn:E.
    + now apply match_not_empty in E.
    + apply matchAt_split in E as (_ & E & _). discriminate E.
    + simpl. split; [lia|discriminate].
  - destruct (matchAt ci n0 re (c :: s)) as [[[|n] cs]|] eqn:E.
    + now apply match_not_empty in E.
    + rewrite (scanF_hit _ _ _ fuel _ _ _ E).
      pose proof (matchAt_split _ _ _ _ _ _ E) as (_ & E2 & _).
      destruct (IH (skipn (S n) (c :: s))) as [Hle _].
      { rewrite length_skipn. simpl in Hlen |- *. lia. }
      cbn [map concat segOut app]. rewrite length_skipn in Hle.
      rewrite length_firstn in E2. simpl length in *. lia.
    + rewrite (scanF_miss _ _ _ fuel _ _ E).
      destruct (IH s) as [Hle Hlt]; [simpl in Hlen; lia|].
      cbn [map concat segOut app]. simpl length. split; [lia|].
      intro H. simpl in H. rewrite E in H. specialize (Hlt H). lia.
Qed.

Lemma first_split (l : str) : In c0 l -> exists l1 l2, l = l1 ++ c0 :: l2 /\ ~ In c0 l1.
Proof.
  induction l as [|x l IH]; [contradiction|].
  destruct (ascii_dec x c0) as [->|Hne].
  - intros _. exists [], l. split; auto.
  - intros [E|Hin]; [contradiction|].
    destruct (IH Hin) as (l1 & l2 & -> & Hl1).
    exists (x :: l1), l2. split; [reflexivity|]. intros [E|H]; auto.
Qed.

(** A match found in [x ++ b], where [x] ends with [c0], lies within [x]. *)
Lemma match_within (n0 : nat) (a b h rest post : str) :
  lang ci n0 re h post ->
  (a ++ [c0]) ++ b = h ++ rest ->
  exists x', a ++ [c0] = h ++ x' /\ rest = x' ++ b /\ (x' = [] \/ exists a', x' = a' ++ [c0]).
Proof.
  intros L E.
  destruct (endsOnly_sound _ _ _ _ re_ends _ _ L) as (uh & -> & Huh).
  rewrite <- !app_assoc in E. simpl in E.
  destruct (in_dec ascii_dec c0 a) as [Hin|Hnin].
  - destruct (first_split a Hin) as (a1 & a2 & -> & Ha1).
    rewrite <- app_assoc in E. simpl in E.
    destruct (first_occurrence_unique _ _ _ _ _ E Ha1 Huh) as [-> <-].
    exists (a2 ++ [c0]). repeat split.
    + now rewrite <- !app_assoc.
    + now rewrite <- app_assoc.
    + right. now exists a2.
  - destruct (first_occurrence_unique _ _ _ _ _ E Hnin Huh) as [-> <-].
    exists []. repeat split; [now rewrite app_nil_r|now left].
Qed.

Lemma deleted_boundary (n0 : nat) :
  forall fuel x b, length (x ++ b) < fuel ->
    (x = [] \/ exists a, x = a ++ [c0]) ->
    deleted ci re n0 fuel (x ++ b) = deleted ci re n0 fuel x ++ deleted ci re n0 fuel b.
Proof.
  induction fuel as [|fuel IH]; intros x b Hlen Hx; [lia|].
  destruct x as [|c x].
  - unfold deleted at 2. simpl.
    destruct (matchAt ci n0 re []) as [[n cs]|]; reflexivity.
  - destruct Hx as [Hx|(a & Ea)]; [discriminate|].
    assert (F : forall s, length s < fuel -> deleted ci re n0 fuel s = deleted ci re n0 (S fuel) s).
    { intros s Hs. unfold deleted. f_equal. f_equal. apply scanF_anchorFree; auto. }
    unfold deleted at 1 2.
    destruct (matchAt ci n0 re ((c :: x) ++ b)) as [[[|n] cs]|] eqn:E.
    + now apply match_not_empty in E.
    + pose proof (matchAt_split _ _ _ _ _ _ E) as (E1 & E2 & L).
      rewrite Ea in E1 at 1.
      destruct (match_within _ _ _ _ _ _ L E1) as (x' & Ex & Er & Hx').
      rewrite <- Ea in Ex.
      (* the same match is found in x alone *)
      assert (L' : lang ci n0 re (firstn (S n) ((c :: x) ++ b)) x')
        by exact (lang_anchorFree ci re re_free _ _ _ _ _ L).
      pose proof (matchAt_complete _ _ _ _ _ L') as M. rewrite <- Ex in M.
      destruct (matchAt ci n0 re (c :: x)) as [[m cs']|] eqn:E'; [|contradiction].
      pose proof (matchAt_split _ _ _ _ _ _ E') as (E1' & E2' & L2).
      destruct m as [|m]; [now apply match_not_empty in E'|].
      assert (U : firstn (S m) (c :: x) = firstn (S n) ((c :: x) ++ b)
                  /\ skipn (S m) (c :: x) = x').
      { destruct (endsOnly_sound _ _ _ _ re_ends _ _ L) as (u1 & Eu1 & Hu1).
        destruct (endsOnly_sound _ _ _ _ re_ends _ _ L2) as (u2 & Eu2 & Hu2).
        rewrite Ex in E1' at 1. rewrite Eu1, Eu2, <- !app_assoc in E1'. simpl in E1'.
        destruct (first_occurrence_unique _ _ _ _ _ E1' Hu1 Hu2) as [-> ->].
        rewrite Eu1, Eu2. now split. }
      destruct U as [U1 U2].
      rewrite (scanF_hit _ _ _ fuel _ _ _ E), (scanF_hit _ _ _ fuel _ _ _ E').
      assert (Hl : length (x' ++ b) < fuel).
      { rewrite <- Er, length_skipn. simpl length in *. lia. }
      rewrite Er, U2. cbn [map concat segOut app].
      fold (deleted ci re n0 fuel (x' ++ b)). fold (deleted ci re n0 fuel x').
      rewrite (IH x' b Hl Hx'). f_equal. apply F.
      rewrite length_app in Hl. lia.
    + assert (E' : matchAt ci n0 re (c :: x) = None).
      { destruct (matchAt ci n0 re (c :: x)) as [[m cs']|] eqn:E'; [|reflexivity].
        exfalso. pose proof (matchAt_split _ _ _ _ _ _ E') as (E1' & _ & L2).
        apply (lang_anchorFree ci re re_free _ n0 _ _ (skipn m (c :: x) ++ b)) in L2.
        apply matchAt_complete in L2. rewrite app_assoc, <- E1' in L2. contradiction. }
      rewrite <- app_comm_cons in E |- *.
      rewrite (scanF_miss _ _ _ fuel _ _ E), (scanF_miss _ _ _ fuel _ _ E').
      cbn [map concat segOut app].
      fold (deleted ci re n0 fuel (x ++ b)). fold (deleted ci re n0 fuel x).
      assert (Hx' : x = [] \/ exists a', x = a' ++ [c0]).
      { destruct a as [|y a']; simpl in Ea; injection Ea as -> ->; [now left|].
        right. now exists a'. }
      simpl in Hlen.
      rewrite (IH x b ltac:(lia) Hx'). f_equal. f_equal. apply F.
      rewrite length_app in Hlen. lia.
Qed.
End Deletion.

(** X11: the removal of CSP meta tags returns the document unchanged exactly
    when the pattern matches nowhere in it; otherwise the result is strictly
    shorter.  It never lengthens a document. *)
Theorem csp_removal_identity_iff_no_tag (html : str) :
  (removeCsp html = html <-> test true reCspMeta html = false) /\
  length (removeCsp html) <= length html /\
  (test true reCspMeta html = true -> length (removeCsp html) < length html).
Proof.
  destruct (deleted_length true reCspMeta ">"%char reCspMeta_ends (length html)
                           (S (length html)) html (Nat.lt_succ_diag_r _)) as [Hle Hlt].
  change (deleted true reCspMeta (length html) (S (length html)) html)
    with (removeCsp html) in Hle, Hlt.
  change (searchFrom true (length html) reCspMeta html)
    with (test true reCspMeta html) in Hlt.
  repeat split; auto.
  - intro E. destruct (test true reCspMeta html) eqn:T; [|reflexivity].
    specialize (Hlt eq_refl). rewrite E in Hlt. lia.
  - intro T. now apply replaceAll_no_match.
Qed.

(** X12: CSP meta tags are removed independently on both sides of any [>]:
    the result for a document cut after a [>] is the result for the part up to
    it followed by the result for the part after it. *)
Theorem csp_removal_splits_after_gt (a b : str) :
  removeCsp (a ++ ">"%char :: b) = removeCsp (a ++ [">"%char]) ++ removeCsp b.
Proof.
  pose proof (deleted_boundary true reCspMeta ">"%char reCspMeta_anchorFree reCspMeta_ends
                               (length (a ++ ">"%char :: b))
                               (S (length (a ++ ">"%char :: b)))
                               (a ++ [">"%char]) b) as H.
  rewrite <- app_assoc in H. simpl app in H.
  unfold removeCsp, replaceAll, scan. unfold deleted in H.
  rewrite H; [|lia|right; now exists a].
  f_equal; f_equal; f_equal; apply scanF_anchorFree;
    try apply reCspMeta_anchorFree; rewrite ?length_app; simpl; lia.
Qed.

(** ** More on the API key and the allowlist (lines 9-13, 36-40) *)

(** X13: a request that sends the configured key in [x-api-key] is answered
    exactly as the same request is when no key is configured. *)
Theorem right_api_key_unlocks
        (parseURL : str -> option URL) (resolveURL : str -> URL -> option str)
        (Number : str -> float) (fetch : str -> str + upstream)
        (key : str) (allow : jsval) (req : request) :
  handler parseURL resolveURL Number fetch (mkEnv (Some key) allow)
          (withApiKey (Some key) req)
  = handler parseURL resolveURL Number fetch (mkEnv None allow) req.
Proof.
  destruct req as [q h k pr ho].
  unfold handler, validate, returnIf, withApiKey, allowed, allowlist.
  cbn [query_url header_target header_api_key req_protocol header_host API_KEY ALLOWLIST].
  rewrite str_eqb_refl, andb_false_r. reflexivity.
Qed.

(** X14: with a single allowlist entry, a hostname that merely ends with the
    entry, with no dot in front of it, is not allowed: the match is on whole
    labels. *)
Theorem allowlist_needs_the_dot (env : environment) (a sub : str) :
  allowlist env = [a] ->
  sub <> [] ->
  (forall s, sub <> s ++ ["."%char]) ->
  allowed env (sub ++ a) = false.
Proof.
  intros A Hne Hdot. destruct (allowed env (sub ++ a)) eqn:E; [|reflexivity].
  exfalso. apply allowed_spec in E as (a' & Hin & H).
  rewrite A in Hin. destruct Hin as [<-|[]].
  destruct H as [H|(s & H)].
  - apply (f_equal (@length ascii)) in H. rewrite length_app in H.
    destruct sub; [contradiction|]. simpl in H. lia.
  - change (s ++ "."%char :: a) with (s ++ ["."%char] ++ a) in H.
    rewrite app_assoc in H. apply app_inv_tail in H. now apply (Hdot s).
Qed.

Lemma allowlist_needs_the_dot_witness :
  allowed exampleAllowlist (lit "evil" ++ lit "example.com") = false.
Proof.
  apply (allowlist_needs_the_dot exampleAllowlist (lit "example.com") (lit "evil")).
  - reflexivity.
  - discriminate.
  - intros s E. apply (f_equal (@rev ascii)) in E. rewrite rev_unit in E.
    discriminate E.
Defined.
